(** * Control: the synchronous environmental controller of [src/control.py]

    A shallow embedding of the [Control] class: its constructor, the sensor
    timer callbacks, the hysteresis evaluator, the display generator, the
    status endpoint, the polling loop and the top-level [start].

    Conventions of the model:
    - Python [int] is [Z]; the finite numeric values that sensors report and
      that thresholds hold are rationals ([Q]), on which comparison is exact;
    - where the binary64 representation of a number decides the result --
      the deltas of the loop, and the strings of the display, with their
      negative zero and the rounding of the Fahrenheit conversion -- the
      computation is on the kernel's binary64 numbers ([Binary64],
      [FloatDisplay]);
    - a Python [dict] is an association list in insertion order;
    - [None] is [option]'s [None];
    - every effect on the hardware, the sockets, the timers and the console is
      appended to an event log carried by the [World], next to the readable
      hardware state;
    - exceptions are an explicit [outcome]. *)

From stdpp Require Import base strings gmap.
From Stdlib Require Import ZArith QArith Qabs Qround String Ascii List Lia Strings.Byte
  DecimalString.
From Stdlib Require Floats.PrimFloat Floats.FloatOps Floats.SpecFloat Uint63.
From Stdlib Require DecimalNat.
Import ListNotations.

Local Open Scope string_scope.
Local Open Scope list_scope.
Local Open Scope Z_scope.

(** ** Python dictionaries *)

Module Dict.

Definition dict (V : Type) := list (string * V).

Definition empty {V} : dict V := [].

(** [d.get(k)] *)
Fixpoint get {V} (k : string) (d : dict V) : option V :=
  match d with
  | [] => None
  | (k', v) :: d' => if String.eqb k k' then Some v else get k d'
  end.

(** [d[k] = v]: an existing key keeps its position, a new key goes last. *)
Fixpoint set {V} (k : string) (v : V) (d : dict V) : dict V :=
  match d with
  | [] => [(k, v)]
  | (k', v') :: d' =>
      if String.eqb k k' then (k, v) :: d' else (k', v') :: set k v d'
  end.

Definition keys {V} (d : dict V) : list string := map fst d.
Definition values {V} (d : dict V) : list V := map snd d.
Definition items {V} (d : dict V) : list (string * V) := d.

(** A list is a dictionary when no key occurs twice. *)
Definition ok {V} (d : dict V) : Prop := NoDup (keys d).

End Dict.

Abbreviation dict := Dict.dict.

(** ** Built-in formatting *)

(** ['%d' % n] for a natural number. *)
Definition fmt_d (n : nat) : string := NilEmpty.string_of_uint (Nat.to_uint n).

(** Python's [not x] on an integer, and ['%d' % b] on a boolean. *)
Definition py_not (x : Z) : bool := x =? 0.
Definition fmt_d_bool (b : bool) : string := if b then "1" else "0".

(** Rounding of a non-negative rational to the nearest integer, ties to even:
    the rounding of C's [printf], which Python's [%] formatting follows. *)
Definition round_half_even (x : Q) : Z :=
  let n := Qnum x in
  let d := Z.pos (Qden x) in
  let fl := n / d in
  match 2 * (n mod d) ?= d with
  | Lt => fl
  | Gt => fl + 1
  | Eq => if Z.even fl then fl else fl + 1
  end.

Definition fmt_nat_of_Z (z : Z) : string := fmt_d (Z.to_nat z).

(** ['%0.1f' % v]: sign, integer part, a dot and one decimal. *)
Definition fmt_1f (v : Q) : string :=
  let tenths := round_half_even (Qabs v * 10) in
  (if Qnum v <? 0 then "-" else "")
    +:+ fmt_nat_of_Z (tenths / 10) +:+ "." +:+ fmt_nat_of_Z (tenths mod 10).

(** [hexlify(b).decode()]: two lower-case hexadecimal digits per byte. *)
Definition hex_digit (n : N) : ascii :=
  match n with
  | 0 => "0" | 1 => "1" | 2 => "2" | 3 => "3" | 4 => "4" | 5 => "5"
  | 6 => "6" | 7 => "7" | 8 => "8" | 9 => "9" | 10 => "a" | 11 => "b"
  | 12 => "c" | 13 => "d" | 14 => "e" | _ => "f"
  end%N%char.

Fixpoint hexlify (b : list byte) : string :=
  match b with
  | [] => ""
  | x :: b' =>
      let n := Byte.to_N x in
      String (hex_digit (n / 16)) (String (hex_digit (n mod 16)) (hexlify b'))
  end.

(** Modelled from the spec: [utils.C2F], the Celsius-to-Fahrenheit conversion
    of the utility module, which is not part of the sources at hand. *)
Definition C2F (c : Q) : Q := c * (9 # 5) + 32.

(** ** Data model *)

(** A sensor reading maps the keys ["t"] and ["h"] to values; the reading
    table maps sensor ids to readings. *)
Definition reading := dict Q.
Definition table := dict reading.

(** [self.sensors.get(name)] where [name] may be [None]: the keys of the table
    are strings, so [None] is never found. *)
Definition table_get (name : option string) (t : table) : option reading :=
  match name with
  | Some n => Dict.get n t
  | None => None
  end.

(** Modelled from the spec: the [hardware] module ([hw]), which is not part of
    the sources at hand.  A temperature bus enumerates device addresses and
    reads the temperature of an address; a combo sensor reports its last
    temperature and humidity; [hw.relays] maps relay names to output pins, of
    which only the raw value is kept. *)
Record Bus := {
  bus_scan : list (list byte);
  bus_read_temp : list byte -> Q
}.

Record Dht := {
  dht_temperature : Q;
  dht_humidity : Q
}.

Record Hardware := {
  relays : dict Z;
  sensors_ds : list Bus;
  sensors_dht : list Dht
}.

(** The fields of a [Control] object. *)
Record Control := {
  check_interval : Z;
  sensor_interval : Z;
  prep_interval : Z;
  display_interval : Z;
  display_f : bool;
  temp1_low : option Q;
  temp1_high : option Q;
  temp1_id : option string;
  temp2_low : option Q;
  temp2_high : option Q;
  temp2_id : option string;
  humid_low : option Q;
  humid_high : option Q;
  humid_id : option string;
  sensors : table;
  last_read : Z
}.

Definition default_check_interval : Z := 30000.
Definition default_sensor_interval : Z := 10000.
Definition default_prep_interval : Z := 800.
Definition default_display_interval : Z := 1000.

(** [x or d] for an optional integer: [None] and [0] are both falsy. *)
Definition py_or (x : option Z) (d : Z) : Z :=
  match x with
  | Some v => if v =? 0 then d else v
  | None => d
  end.

(** [Control.__init__].  The timer handle that [init_timer] creates is not
    armed and leaves no trace on the hardware. *)
Definition Control_init
    (check_interval sensor_interval prep_interval display_interval : option Z)
    (display_f : bool)
    (temp1_low temp1_high : option Q) (temp1_id : option string)
    (temp2_low temp2_high : option Q) (temp2_id : option string)
    (humid_low humid_high : option Q) (humid_id : option string) : Control :=
  {| check_interval := py_or check_interval default_check_interval;
     sensor_interval := py_or sensor_interval default_sensor_interval;
     prep_interval := py_or prep_interval default_prep_interval;
     display_interval := py_or display_interval default_display_interval;
     display_f := display_f;
     temp1_low := temp1_low;
     temp1_high := temp1_high;
     temp1_id := temp1_id;
     temp2_low := temp2_low;
     temp2_high := temp2_high;
     temp2_id := temp2_id;
     humid_low := humid_low;
     humid_high := humid_high;
     humid_id := humid_id;
     sensors := Dict.empty;
     last_read := 0 |}.

Definition set_sensors (t : table) (c : Control) : Control :=
  {| check_interval := check_interval c;
     sensor_interval := sensor_interval c;
     prep_interval := prep_interval c;
     display_interval := display_interval c;
     display_f := display_f c;
     temp1_low := temp1_low c;
     temp1_high := temp1_high c;
     temp1_id := temp1_id c;
     temp2_low := temp2_low c;
     temp2_high := temp2_high c;
     temp2_id := temp2_id c;
     humid_low := humid_low c;
     humid_high := humid_high c;
     humid_id := humid_id c;
     sensors := t;
     last_read := last_read c |}.

Definition set_last_read (now : Z) (c : Control) : Control :=
  {| check_interval := check_interval c;
     sensor_interval := sensor_interval c;
     prep_interval := prep_interval c;
     display_interval := display_interval c;
     display_f := display_f c;
     temp1_low := temp1_low c;
     temp1_high := temp1_high c;
     temp1_id := temp1_id c;
     temp2_low := temp2_low c;
     temp2_high := temp2_high c;
     temp2_id := temp2_id c;
     humid_low := humid_low c;
     humid_high := humid_high c;
     humid_id := humid_id c;
     sensors := sensors c;
     last_read := now |}.

(** ** Events *)

(** The console messages, one constructor per [print] of the source, with the
    values that the message interpolates. *)
Inductive message :=
| msg_starting_timer
| msg_updating_sensors
| msg_prep_sensors
| msg_read_sensors
| msg_sensors (t : table)
| msg_stopping_timer
| msg_closing_socket
| msg_running_maintenance
| msg_handling_sensor (sensor_name : option string)
| msg_no_reading (sensor_name : option string)
| msg_no_value (sensor_name : option string) (k : string)
| msg_no_relay (relay_name : string)
| msg_activating (sensor_name : option string) (value low : Q)
    (relay_name : string)
| msg_deactivating (sensor_name : option string) (value high : Q)
    (relay_name : string)
| msg_handling_connection (addr : string)
| msg_deactivating_all.

Inductive timer_mode := PERIODIC | ONE_SHOT.
Inductive callback := cb_update_sensors | cb_read_sensors.

(** The data handed to [json.dumps]. *)
#[local] Set Warnings "-register-all".
Inductive json :=
| JInt (z : Z)
| JNum (q : Q)
| JObj (fields : list (string * json)).
#[local] Set Warnings "register-all".

Inductive event :=
| Print (m : message)
| DisplayShow (text : string)
| RelayOn (name : string)
| RelayOff (name : string)
| ConvertTemp (bus : nat)
| Measure (sensor : nat)
| TimerInit (period : Z) (mode : timer_mode) (cb : callback)
| TimerDeinit
| SocketBind (host : string) (port : Z)
| SocketListen (backlog : Z)
| SocketClose
| PollRegister
| ClientReadline (line : string)
| ClientSend (payload : json)
| ClientClose.

(** ** The world and the monad of effects *)

Record World := {
  self : Control;
  hw : Hardware;
  out : list event
}.

Inductive exn := KeyboardInterrupt | TypeError | OSError.

Inductive outcome (A : Type) :=
| Return (a : A)
| Raise (e : exn).
Arguments Return {A} a.
Arguments Raise {A} e.

(** A computation transforms the world and returns or raises; the effects
    that precede a [Raise] stay. *)
Definition M (A : Type) := World -> World * outcome A.

Definition ret {A} (a : A) : M A := fun w => (w, Return a).

Definition raise {A} (e : exn) : M A := fun w => (w, Raise e).

Definition bind {A B} (m : M A) (k : A -> M B) : M B :=
  fun w =>
    match m w with
    | (w', Return a) => k a w'
    | (w', Raise e) => (w', Raise e)
    end.

Declare Scope control_scope.
Delimit Scope control_scope with control.
Notation "x <- m ;; k" := (bind m (fun x => k))
  (at level 100, m at next level, right associativity) : control_scope.
Notation "m ;; k" := (bind m (fun _ => k))
  (at level 100, right associativity) : control_scope.
Local Open Scope control_scope.

Definition gets {A} (f : World -> A) : M A := fun w => (w, Return (f w)).

Definition modify (f : World -> World) : M unit := fun w => (f w, Return tt).

Definition emit (e : event) : M unit :=
  modify (fun w => {| self := self w; hw := hw w; out := out w ++ [e] |}).

Definition print (m : message) : M unit := emit (Print m).

Definition update_self (f : Control -> Control) : M unit :=
  modify (fun w => {| self := f (self w); hw := hw w; out := out w |}).

Definition set_relay (name : string) (raw : Z) (h : Hardware) : Hardware :=
  {| relays := Dict.set name raw (relays h);
     sensors_ds := sensors_ds h;
     sensors_dht := sensors_dht h |}.

Definition update_hw (f : Hardware -> Hardware) : M unit :=
  modify (fun w => {| self := self w; hw := f (hw w); out := out w |}).

(** Modelled from the spec: the relay operations of the [hardware] module.
    The convention is active-low: [on] drives the raw output to 1, which
    switches the controlled device off, and [off] drives it to 0. *)
Definition relay_on (name : string) : M unit :=
  emit (RelayOn name) ;; update_hw (set_relay name 1).

Definition relay_off (name : string) : M unit :=
  emit (RelayOff name) ;; update_hw (set_relay name 0).

(** [hw.display.show(text)] *)
Definition display_show (text : string) : M unit := emit (DisplayShow text).

(** [for x in xs: body(x)] *)
Fixpoint for_each {A} (xs : list A) (body : A -> M unit) : M unit :=
  match xs with
  | [] => ret tt
  | x :: xs' => body x ;; for_each xs' body
  end.

(** [try: body except KeyboardInterrupt: pass finally: final].  An exception
    that [final] raises replaces the pending one. *)
Definition try_finally (body : M unit) (final : M unit) : M unit :=
  fun w =>
    let (w1, r) := body w in
    let pending :=
      match r with
      | Raise KeyboardInterrupt => Return tt
      | _ => r
      end in
    match final w1 with
    | (w2, Return _) => (w2, pending)
    | (w2, Raise e) => (w2, Raise e)
    end.

(** ** The sensor timer *)

(** [start_timer] *)
Definition start_timer : M unit :=
  print msg_starting_timer ;;
  period <- gets (fun w => sensor_interval (self w)) ;;
  emit (TimerInit period PERIODIC cb_update_sensors).

(** [stop_timer] *)
Definition stop_timer : M unit :=
  print msg_stopping_timer ;;
  emit TimerDeinit.

(** [for i, x in enumerate(xs)], counting from [i]. *)
Fixpoint enumerate_from {A} (i : nat) (xs : list A) : list (nat * A) :=
  match xs with
  | [] => []
  | x :: xs' => (i, x) :: enumerate_from (S i) xs'
  end.

Definition enumerate {A} (xs : list A) : list (nat * A) := enumerate_from 0 xs.

(** [prep_sensors] *)
Definition prep_sensors : M unit :=
  print msg_prep_sensors ;;
  buses <- gets (fun w => sensors_ds (hw w)) ;;
  for_each (enumerate buses) (fun ib => emit (ConvertTemp (fst ib))) ;;
  dhts <- gets (fun w => sensors_dht (hw w)) ;;
  for_each (enumerate dhts) (fun id => emit (Measure (fst id))).

(** [update_sensors], the callback of the periodic timer. *)
Definition update_sensors : M unit :=
  print msg_updating_sensors ;;
  prep_sensors ;;
  period <- gets (fun w => prep_interval (self w)) ;;
  emit (TimerInit period ONE_SHOT cb_read_sensors).

(** The assignments [self.sensors[id] = ...] that [read_sensors] performs, in
    the order of the two loops. *)
Definition ds_assignments (buses : list Bus) : list (string * reading) :=
  flat_map
    (fun bus =>
       map (fun sensor =>
              ("ds-" +:+ hexlify sensor, [("t", bus_read_temp bus sensor)]))
           (bus_scan bus))
    buses.

Definition dht_assignments (dhts : list Dht) : list (string * reading) :=
  map (fun '(i, sensor) =>
         ("dht-" +:+ fmt_d i,
          [("t", dht_temperature sensor); ("h", dht_humidity sensor)]))
      (enumerate dhts).

Definition assignments (h : Hardware) : list (string * reading) :=
  ds_assignments (sensors_ds h) ++ dht_assignments (sensors_dht h).

(** [self.sensors[id] = r] *)
Definition assign_sensor (a : string * reading) : M unit :=
  update_self (fun c => set_sensors (Dict.set (fst a) (snd a) (sensors c)) c).

(** [read_sensors], the callback of the one-shot timer; [now] is what
    [time.ticks_ms()] returns at the end. *)
Definition read_sensors (now : Z) : M unit :=
  print msg_read_sensors ;;
  update_self (set_sensors Dict.empty) ;;
  todo <- gets (fun w => assignments (hw w)) ;;
  for_each todo assign_sensor ;;
  t <- gets (fun w => sensors (self w)) ;;
  print (msg_sensors t) ;;
  update_self (set_last_read now).

(** ** The listening socket *)

(** [init_socket] *)
Definition init_socket : M unit :=
  emit (SocketBind "0.0.0.0" 80) ;;
  emit (SocketListen 2).

(** [close_socket] *)
Definition close_socket : M unit :=
  print msg_closing_socket ;;
  emit SocketClose.

(** [init_poll] only creates the poll object. *)
Definition init_poll : M unit := ret tt.

(** ** Hysteresis *)

(** [handle_sensor].  The comparisons [value <= low] and [value >= high]
    raise a type error when the threshold is [None]. *)
Definition handle_sensor (sensor_name : option string) (k : string)
    (low high : option Q) (relay_name : string) : M unit :=
  print (msg_handling_sensor sensor_name) ;;
  sensor <- gets (fun w => table_get sensor_name (sensors (self w))) ;;
  match sensor with
  | None => print (msg_no_reading sensor_name)
  | Some sensor =>
      match Dict.get k sensor with
      | None => print (msg_no_value sensor_name k)
      | Some value =>
          relay <- gets (fun w => Dict.get relay_name (relays (hw w))) ;;
          match relay with
          | None => print (msg_no_relay relay_name)
          | Some _ =>
              match low with
              | None => raise TypeError
              | Some lo =>
                  if Qle_bool value lo then
                    print (msg_activating sensor_name value lo relay_name) ;;
                    relay_off relay_name
                  else
                    match high with
                    | None => raise TypeError
                    | Some hi =>
                        if Qle_bool hi value then
                          print (msg_deactivating sensor_name value hi
                                   relay_name) ;;
                          relay_on relay_name
                        else ret tt
                    end
              end
          end
      end
  end.

(** [do_maintenance] *)
Definition do_maintenance : M unit :=
  c <- gets self ;;
  handle_sensor (temp1_id c) "t" (temp1_low c) (temp1_high c) "heat1" ;;
  handle_sensor (temp2_id c) "t" (temp2_low c) (temp2_high c) "heat2" ;;
  handle_sensor (humid_id c) "h" (humid_low c) (humid_high c) "humidifier".

(** ** The status endpoint *)

(** [relay_state]: the dictionary comprehension inserts the raw value of every
    relay under its name. *)
Definition relay_state : M (dict Z) :=
  gets (fun w =>
          fold_left (fun acc '(k, v) => Dict.set k v acc)
                    (Dict.items (relays (hw w))) Dict.empty).

(** [relays_off] *)
Definition relays_off : M unit :=
  print msg_deactivating_all ;;
  names <- gets (fun w => Dict.keys (relays (hw w))) ;;
  for_each names relay_on.

Definition CRLF : string := String "013" (String "010" "").

(** [not line or line == b'\r\n'] *)
Definition blank (line : string) : bool :=
  (String.eqb line "" || String.eqb line CRLF)%bool.

(** The drain loop of [handle_client].  [lines] is what the client sends, one
    element per [readline]; once it is exhausted the stream is at its end and
    [readline] returns the empty string. *)
Fixpoint drain (lines : list string) : M unit :=
  match lines with
  | [] => emit (ClientReadline "")
  | line :: rest =>
      emit (ClientReadline line) ;;
      if blank line then ret tt else drain rest
  end.

Definition json_of_reading (r : reading) : json :=
  JObj (map (fun '(k, v) => (k, JNum v)) r).

Definition json_of_table (t : table) : json :=
  JObj (map (fun '(id, r) => (id, json_of_reading r)) t).

Definition json_of_relays (r : dict Z) : json :=
  JObj (map (fun '(k, v) => (k, JInt v)) r).

(** [handle_client] *)
Definition handle_client (lines : list string) (addr : string) : M unit :=
  print (msg_handling_connection addr) ;;
  drain lines ;;
  relays <- relay_state ;;
  c <- gets self ;;
  let data :=
    JObj [("sensors", json_of_table (sensors c));
          ("relays", json_of_relays relays);
          ("last_read", JInt (last_read c))] in
  emit (ClientSend data) ;;
  emit ClientClose.

(** ** The display generator *)

(** The three branches that format a value in [task_display]. *)
Definition format_value (display_f : bool) (k : string) (v : Q) : string :=
  if (String.eqb k "t" && display_f)%bool then fmt_1f (C2F v) +:+ "F"
  else if String.eqb k "t" then fmt_1f v +:+ "C"
  else fmt_1f v.

(** ['S%d %s' % (i, k)] and ['%s    ' % (v,)] *)
Definition label_text (i : nat) (k : string) : string :=
  "S" +:+ fmt_d i +:+ " " +:+ k.

Definition value_text (v : string) : string := v +:+ "    ".

(** The relay summary line: ['r%s' % ''.join(r)] with one digit per relay. *)
Definition relay_digit (raw : Z) : string := fmt_d_bool (py_not raw).

Definition relay_summary (h : Hardware) : string :=
  "r" +:+ String.concat "" (map relay_digit (Dict.values (relays h))).

(** Where the generator is suspended.  [at_top] is the generator before its
    first step and at the yield that follows the relay summary, from which
    the [while] loop starts over.  The other two are the yields of the inner
    loop: they keep the sensor index, the items of the current reading that
    are still to come and the readings that the outer loop has not reached. *)
Inductive gen :=
| at_top
| after_label (i : nat) (v : string) (items : list (string * Q))
    (rest : list reading)
| after_value (i : nat) (items : list (string * Q)) (rest : list reading).

(** The inner loop from its head to the next yield; [exhausted] is what
    follows when no item is left. *)
Definition run_items (f : bool) (i : nat) (items : list (string * Q))
    (rest : list reading) (exhausted : M gen) : M gen :=
  match items with
  | [] => exhausted
  | (k, v) :: items' =>
      display_show (label_text i k) ;;
      ret (after_label i (format_value f k v) items' rest)
  end.

(** The outer loop from its head to the next yield. *)
Fixpoint run_sensors (f : bool) (i : nat) (values : list reading) : M gen :=
  match values with
  | [] =>
      h <- gets hw ;;
      display_show (relay_summary h) ;;
      ret at_top
  | r :: rest => run_items f i (Dict.items r) rest (run_sensors f (S i) rest)
  end.

(** [next(display)]: one step of [task_display], up to the next yield. *)
Definition next (g : gen) : M gen :=
  match g with
  | at_top =>
      c <- gets self ;;
      run_sensors (display_f c) 0 (Dict.values (sensors c))
  | after_label i v items rest =>
      display_show (value_text v) ;;
      ret (after_value i items rest)
  | after_value i items rest =>
      c <- gets self ;;
      run_items (display_f c) i items rest
                (run_sensors (display_f c) (S i) rest)
  end.

(** [n] successive steps of the generator. *)
Fixpoint advance (n : nat) (g : gen) : M gen :=
  match n with
  | O => ret g
  | S n' => g' <- next g ;; advance n' g'
  end.

(** ** The main loop *)

(** The deltas as the specification words them: the floor of 0.9 times the
    interval. *)
Definition floor_delta (interval : Z) : Z :=
  Qfloor ((9 # 10) * inject_Z interval).

(** The arithmetic of [int(interval * 0.9)]: Python converts the integer to
    binary64, multiplies it by the binary64 constant nearest to 0.9 and
    truncates the product.  The kernel's binary64 numbers do the same.  (An
    integer beyond the range of binary64 makes Python raise an overflow
    error; such intervals are outside the model.) *)
Module Binary64.

Import PrimFloat.

(** [int(x)] on a binary64 number. *)
Definition trunc (x : PrimFloat.float) : Z :=
  match FloatOps.Prim2SF x with
  | SpecFloat.S754_finite s m e =>
      let a := if 0 <=? e then Z.pos m * 2 ^ e else Z.pos m / 2 ^ (- e) in
      if s then - a else a
  | _ => 0
  end.

(** The conversion of an integer, rounded to the nearest binary64 number. *)
Definition of_int (n : Z) : PrimFloat.float :=
  FloatOps.SF2Prim
    (SpecFloat.binary_normalize FloatOps.prec FloatOps.emax n 0 false).

Definition nine_tenths : PrimFloat.float := 0x1.ccccccccccccdp-1%float.

Definition delta (interval : Z) : Z :=
  trunc (PrimFloat.mul (of_int interval) nine_tenths).

(** The product is the floor on every interval from [lo] on, [n] of them. *)
Fixpoint agree (n : nat) (lo : Z) : bool :=
  match n with
  | O => true
  | S n' => (delta lo =? floor_delta lo) && agree n' (lo + 1)
  end.

End Binary64.

(** [int(self.check_interval * 0.9)] and [int(self.display_interval * 0.9)] *)
Definition check_delta (check_interval : Z) : Z :=
  Binary64.delta check_interval.

Definition display_delta (display_interval : Z) : Z :=
  Binary64.delta display_interval.

(** [time.ticks_diff] of MicroPython: the signed difference of two tick
    counts that wrap around at [2^30]. *)
Definition ticks_diff (t1 t0 : Z) : Z :=
  (t1 - t0 + 2 ^ 29) mod 2 ^ 30 - 2 ^ 29.

(** What the environment feeds the loop.  One [iteration] holds the events
    that [poll.poll] returns and the three readings of the clock that the
    body of the loop may take. *)
Record connection := {
  conn_addr : string;
  conn_lines : list string
}.

Record poll_event := {
  ev_on_server : bool;
  ev_client : connection
}.

Record iteration := {
  it_events : list poll_event;
  it_now : Z;
  it_after_display : Z;
  it_before_check : Z
}.

(** Between two iterations a timer may fire and the sensors may change. *)
Inductive step :=
| Iterate (it : iteration)
| FireUpdate
| FireRead (now : Z)
| Sense (ds : list Bus) (dht : list Dht).

Record loop_state := {
  last_check : Z;
  last_display : Z;
  display : gen
}.

Definition set_sensed (ds : list Bus) (dht : list Dht) (h : Hardware)
  : Hardware :=
  {| relays := relays h; sensors_ds := ds; sensors_dht := dht |}.

(** The body of the [while] loop of [loop]. *)
Definition loop_body (it : iteration) (st : loop_state) : M loop_state :=
  c <- gets self ;;
  let now := it_now it in
  st1 <- (if ticks_diff now (last_display st)
               >=? display_delta (display_interval c)
          then
            g <- next (display st) ;;
            ret {| last_check := last_check st;
                   last_display := it_after_display it;
                   display := g |}
          else ret st) ;;
  st2 <- (if ticks_diff now (last_check st1) >=? check_delta (check_interval c)
          then
            print msg_running_maintenance ;;
            do_maintenance ;;
            ret {| last_check := it_before_check it;
                   last_display := last_display st1;
                   display := display st1 |}
          else ret st1) ;;
  for_each (it_events it)
    (fun ev =>
       if ev_on_server ev then
         handle_client (conn_lines (ev_client ev)) (conn_addr (ev_client ev))
       else ret tt) ;;
  ret st2.

(** The [while True] of [loop] over the steps of the environment.  The loop
    has no exit of its own: it ends when an exception is raised in its body,
    or when the environment raises [stop] at [poll.poll]. *)
Fixpoint loop_from (script : list step) (stop : exn) (st : loop_state)
  : M unit :=
  match script with
  | [] => raise stop
  | Iterate it :: script' =>
      st' <- loop_body it st ;;
      loop_from script' stop st'
  | FireUpdate :: script' =>
      update_sensors ;; loop_from script' stop st
  | FireRead now :: script' =>
      read_sensors now ;; loop_from script' stop st
  | Sense ds dht :: script' =>
      update_hw (set_sensed ds dht) ;; loop_from script' stop st
  end.

(** [loop]; [t0] and [t1] are the two readings of the clock before the
    [while]. *)
Definition loop (t0 t1 : Z) (script : list step) (stop : exn) : M unit :=
  emit PollRegister ;;
  loop_from script stop
    {| last_check := t0; last_display := t1; display := at_top |}.

(** ** Start and shutdown *)

(** The [try] block of [start]. *)
Definition try_block (t0 t1 : Z) (script : list step) (stop : exn) : M unit :=
  display_show "RUN " ;;
  start_timer ;;
  loop t0 t1 script stop.

(** The [finally] block of [start]. *)
Definition cleanup : M unit :=
  relays_off ;;
  close_socket ;;
  stop_timer ;;
  display_show "STOP".

(** [start] *)
Definition start (t0 t1 : Z) (script : list step) (stop : exn) : M unit :=
  init_socket ;;
  init_poll ;;
  try_finally (try_block t0 t1 script stop) cleanup.

(** ** The display on binary64 readings

    The sensor drivers return binary64 numbers, and ['%0.1f'] prints of such
    a number what a rational does not carry: the sign of a negative zero,
    the infinities and nan; the conversion to Fahrenheit is rounded at each
    of its operations.  This module runs [task_display] on tables of binary64
    readings.  Its state holds what the generator reads -- the unit flag, the
    reading table, the raw values of the relays -- and the strings that
    [hw.display.show] has received. *)
Module FloatDisplay.

Import PrimFloat.

Definition reading := dict float.
Definition table := dict reading.

(** The exact value of a finite binary64 number. *)
Definition exact (x : float) : Q :=
  match FloatOps.Prim2SF x with
  | SpecFloat.S754_finite s m e =>
      let a := if (0 <=? e)%Z then inject_Z (Z.pos m * 2 ^ e)
               else Z.pos m # Z.to_pos (2 ^ (- e)) in
      if s then Qopp a else a
  | _ => 0%Q
  end.

(** ['%d' % z] for an integer that is not negative. *)
Definition fmt_Z (z : Z) : string :=
  NilEmpty.string_of_uint (N.to_uint (Z.to_N z)).

(** The characters of ['%0.1f'] for the exact value of a finite number:
    sign, integer part, a dot and one decimal. *)
Definition digits_1f (v : Q) : string :=
  let tenths := round_half_even (Qabs v * 10) in
  (if (Qnum v <? 0)%Z then "-" else "")
    +:+ fmt_Z (tenths / 10)%Z +:+ "." +:+ fmt_Z (tenths mod 10)%Z.

(** ['%0.1f' % x] *)
Definition fmt_1f (x : float) : string :=
  match FloatOps.Prim2SF x with
  | SpecFloat.S754_nan => "nan"
  | SpecFloat.S754_infinity s => if s then "-inf" else "inf"
  | SpecFloat.S754_zero s => if s then "-0.0" else "0.0"
  | SpecFloat.S754_finite _ _ _ => digits_1f (exact x)
  end.

(** Modelled from the spec: [utils.C2F], the Celsius-to-Fahrenheit conversion
    of the utility module, which is not part of the sources at hand; here as
    [c * 9 / 5 + 32] in binary64. *)
Definition C2F (c : float) : float := (c * 9 / 5 + 32)%float.

(** The three branches that format a value in [task_display]. *)
Definition format_value (display_f : bool) (k : string) (v : float) : string :=
  if (String.eqb k "t" && display_f)%bool then fmt_1f (C2F v) +:+ "F"
  else if String.eqb k "t" then fmt_1f v +:+ "C"
  else fmt_1f v.

Record state := {
  units_f : bool;
  readings : table;
  relay_values : dict Z;
  shown : list string
}.

(** [hw.display.show(text)] *)
Definition show (text : string) (s : state) : state :=
  {| units_f := units_f s;
     readings := readings s;
     relay_values := relay_values s;
     shown := shown s ++ [text] |}.

(** The relay summary line. *)
Definition summary (s : state) : string :=
  "r" +:+ String.concat "" (map relay_digit (Dict.values (relay_values s))).

(** Where the generator is suspended, as in [gen] above. *)
Inductive gen :=
| at_top
| after_label (i : nat) (v : string) (items : list (string * float))
    (rest : list reading)
| after_value (i : nat) (items : list (string * float)) (rest : list reading).

(** The inner loop from its head to the next yield. *)
Definition run_items (f : bool) (i : nat) (items : list (string * float))
    (rest : list reading) (exhausted : state -> state * gen) (s : state)
  : state * gen :=
  match items with
  | [] => exhausted s
  | (k, v) :: items' =>
      (show (label_text i k) s,
       after_label i (format_value f k v) items' rest)
  end.

(** The outer loop from its head to the next yield. *)
Fixpoint run_sensors (f : bool) (i : nat) (values : list reading) (s : state)
  : state * gen :=
  match values with
  | [] => (show (summary s) s, at_top)
  | r :: rest =>
      run_items f i (Dict.items r) rest (run_sensors f (S i) rest) s
  end.

(** [next(display)] *)
Definition next (g : gen) (s : state) : state * gen :=
  match g with
  | at_top => run_sensors (units_f s) 0 (Dict.values (readings s)) s
  | after_label i v items rest =>
      (show (value_text v) s, after_value i items rest)
  | after_value i items rest =>
      run_items (units_f s) i items rest
                (run_sensors (units_f s) (S i) rest) s
  end.

Fixpoint advance (n : nat) (g : gen) (s : state) : state * gen :=
  match n with
  | O => (s, g)
  | S n' => let (s', g') := next g s in advance n' g' s'
  end.


(** One pass as the specification words it: for each sensor of the table,
    with its position, and for each key of its reading, the label and then
    the formatted value, which the source pads with four spaces. *)
Definition items_shows (f : bool) (i : nat) (items : list (string * float))
  : list string :=
  flat_map (fun '(k, v) => [label_text i k; value_text (format_value f k v)])
           items.

Definition sensors_shows (f : bool) (i : nat) (values : list reading)
  : list string :=
  flat_map (fun '(j, r) => items_shows f j (Dict.items r))
           (enumerate_from i values).

Definition pass_shows (f : bool) (t : table) : list string :=
  sensors_shows f 0 (Dict.values t).

Definition displayed_keys (t : table) : nat :=
  list_sum (map (fun r => length (Dict.items r)) (Dict.values t)).

Definition remaining (f : bool) (t : table) (g : gen) : list string :=
  match g with
  | at_top => pass_shows f t
  | after_label i v items rest =>
      value_text v :: items_shows f i items ++ sensors_shows f (S i) rest
  | after_value i items rest =>
      items_shows f i items ++ sensors_shows f (S i) rest
  end.



(** The table of the specification's example, and a state around it. *)
Definition example_table : table :=
  [("ds-ab12", [("t", 22.5%float)]);
   ("dht-0", [("t", 18%float); ("h", 55%float)])].


End FloatDisplay.

(** ** Examples *)

(** The reading table of the specification's examples, with the temperature
    [t] for the bus sensor. *)
Definition example_table (t : Q) : table :=
  [("ds-ab12", [("t", t)]); ("dht-0", [("t", 18%Q); ("h", 55%Q)])].

Definition example_hw : Hardware :=
  {| relays := [("heat1", 1); ("heat2", 0); ("humidifier", 1)];
     sensors_ds :=
       [{| bus_scan := [[Byte.xab; Byte.x12]];
           bus_read_temp := fun _ => 45 # 2 |}];
     sensors_dht := [{| dht_temperature := 18; dht_humidity := 55 |}] |}.

(** ** The rebuild of the reading table, statement by statement

    [read_sensors] above runs as one step.  To see what the shared field
    [self.sensors] holds between two statements of a rebuild, the dictionary
    objects live in a store and the field holds a reference. *)
Module Rebuild.

Record store := {
  heap : gmap nat table;
  field : nat;
  stamp : Z
}.

(** What a reader of [self.sensors] sees. *)
Definition shared (s : store) : table :=
  default Dict.empty (heap s !! field s).

(** [t[id] = r] on a table. *)
Definition assign (a : string * reading) (t : table) : table :=
  Dict.set (fst a) (snd a) t.

(** The statements of [read_sensors] that touch the object. *)
Inductive stmt :=
| s_new
| s_assign (a : string * reading)
| s_stamp (now : Z).

Definition exec (i : stmt) (s : store) : store :=
  match i with
  | s_new =>
      let l := fresh (dom (heap s)) in
      {| heap := <[l := (Dict.empty : table)]> (heap s); field := l;
         stamp := stamp s |}
  | s_assign a =>
      {| heap := alter (assign a) (field s) (heap s);
         field := field s; stamp := stamp s |}
  | s_stamp now =>
      {| heap := heap s; field := field s; stamp := now |}
  end.

Definition statements (h : Hardware) (now : Z) : list stmt :=
  s_new :: map s_assign (assignments h) ++ [s_stamp now].

Definition run (p : list stmt) (s : store) : store :=
  fold_left (fun s i => exec i s) p s.

(** The store after the first [k] statements of a rebuild. *)
Definition at_point (k : nat) (h : Hardware) (now : Z) (s : store) : store :=
  run (firstn k (statements h now)) s.

(** The table built by the first [k] assignments. *)
Definition built (k : nat) (h : Hardware) : table :=
  fold_left (fun t a => assign a t) (firstn k (assignments h)) Dict.empty.

(** Build-then-publish, as the specification words it: at every point of a
    rebuild a reader of the shared field sees the complete old table or the
    complete new one. *)
Definition build_then_publish (h : Hardware) (now : Z) (s : store) : Prop :=
  forall k,
    shared (at_point k h now s) = shared s
    \/ shared (at_point k h now s) = shared (run (statements h now) s).

(** A store whose shared table is the example table, before a rebuild. *)
Definition example_store : store :=
  {| heap := {[ 0%nat := example_table 22 ]}; field := 0%nat; stamp := 0 |}.

End Rebuild.

(** ** Notions used by the statements *)

(** The arguments of the constructor with every zero interval replaced by
    [None]. *)
Definition unset_zero (x : option Z) : option Z :=
  match x with
  | Some 0 => None
  | _ => x
  end.

(** The world after more events, and after a write to a relay pin. *)
Definition logged (es : list event) (w : World) : World :=
  {| self := self w; hw := hw w; out := out w ++ es |}.

Definition switched (name : string) (raw : Z) (w : World) : World :=
  {| self := self w; hw := set_relay name raw (hw w); out := out w |}.

(** The messages with which [handle_sensor] skips a channel. *)
Definition skip_message (sensor_name : option string) (k relay_name : string)
    (m : message) : Prop :=
  m = msg_no_reading sensor_name
  \/ m = msg_no_value sensor_name k
  \/ m = msg_no_relay relay_name.

(** A channel whose sensor has a value and whose relay exists. *)
Definition live_channel (w : World) (sensor_name : option string)
    (k relay_name : string) : Prop :=
  exists sensor value raw,
    table_get sensor_name (sensors (self w)) = Some sensor
    /\ Dict.get k sensor = Some value
    /\ Dict.get relay_name (relays (hw w)) = Some raw.

(** The controller keeps its fields and the hardware keeps its relays, up to
    their raw values. *)
Definition steady (w w' : World) : Prop :=
  self w' = self w
  /\ Dict.keys (relays (hw w')) = Dict.keys (relays (hw w)).

(** A world around the example table: channel 1 watches the bus sensor
    between 20 and 25 degrees, the other channels are not configured. *)
Definition example_world (t : Q) : World :=
  {| self :=
       set_sensors (example_table t)
         (Control_init None None None None false
            (Some 20%Q) (Some 25%Q) (Some "ds-ab12")
            None None None None None None);
     hw := example_hw;
     out := [] |}.

(** One pass of the display as the specification words it: for each sensor
    of the table, with its position, and for each key of its reading, a label
    and then the formatted value. *)
Definition items_shows (f : bool) (i : nat) (items : list (string * Q))
  : list string :=
  flat_map (fun '(k, v) => [label_text i k; value_text (format_value f k v)])
           items.

Definition sensors_shows (f : bool) (i : nat) (values : list reading)
  : list string :=
  flat_map (fun '(j, r) => items_shows f j (Dict.items r))
           (enumerate_from i values).

Definition pass_shows (f : bool) (t : table) : list string :=
  sensors_shows f 0 (Dict.values t).

(** The number of keys that a table displays. *)
Definition displayed_keys (t : table) : nat :=
  list_sum (map (fun r => length (Dict.items r)) (Dict.values t)).

(** What a suspended generator still shows before the relay summary. *)
Definition remaining (f : bool) (t : table) (g : gen) : list string :=
  match g with
  | at_top => pass_shows f t
  | after_label i v items rest =>
      value_text v :: items_shows f i items ++ sensors_shows f (S i) rest
  | after_value i items rest =>
      items_shows f i items ++ sensors_shows f (S i) rest
  end.

(** The lines that a request is read for, as the specification words it: the
    lines of the stream up to and with the first one that is empty or is
    [\r\n], or all of them and the empty read at the end of the stream. *)
Fixpoint request_reads (lines : list string) : list string :=
  match lines with
  | [] => [""]
  | line :: rest =>
      if (String.eqb line "" || String.eqb line CRLF)%bool then [line]
      else line :: request_reads rest
  end.


(** The character that the relay summary shows for a raw value. *)
Definition inverse_digit (raw : Z) : ascii :=
  if raw =? 0 then "1"%char else "0"%char.

(** The relays of the hardware keep their names. *)
Definition relays_kept (w w' : World) : Prop :=
  Dict.keys (relays (hw w')) = Dict.keys (relays (hw w)).

(** A computation that keeps the names of the relays, whatever the world. *)
Definition Keeps {A} (m : M A) : Prop :=
  forall w, relays_kept w (fst (m w)).

(** The events of the shutdown, for the relays with the given names. *)
Definition cleanup_events (names : list string) : list event :=
  Print msg_deactivating_all
  :: map RelayOn names
  ++ [Print msg_closing_socket; SocketClose;
      Print msg_stopping_timer; TimerDeinit;
      DisplayShow "STOP"].

(** What [start] returns when its [try] block has ended with [e]: the
    interrupt is swallowed, anything else goes on. *)
Definition after_cleanup (e : exn) : outcome unit :=
  match e with
  | KeyboardInterrupt => Return tt
  | _ => Raise e
  end.

(** A configuration in which some channel has a sensor with a value and a
    relay, but no low threshold. *)
Definition unguarded (w : World) : Prop :=
  let c := self w in
  (live_channel w (temp1_id c) "t" "heat1" /\ temp1_low c = None)
  \/ (live_channel w (temp2_id c) "t" "heat2" /\ temp2_low c = None)
  \/ (live_channel w (humid_id c) "h" "humidifier" /\ humid_low c = None).

(** The example world with a second channel on the combo sensor that has a
    sensor id and no thresholds. *)
Definition unguarded_world : World :=
  {| self :=
       set_sensors (example_table 22)
         (Control_init None None None None false
            (Some 20%Q) (Some 25%Q) (Some "ds-ab12")
            None None (Some "dht-0") None None None);
     hw := example_hw;
     out := [] |}.

(** The ids under which [read_sensors] files a bus device and a combo
    sensor, and the two shapes of the entries it makes. *)
Definition ds_id (rom : list byte) : string := "ds-" +:+ hexlify rom.

Definition dht_id (i : nat) : string := "dht-" +:+ fmt_d i.

Definition entry_shape (e : string * reading) : Prop :=
  (exists rom t, e = (ds_id rom, [("t", t)]))
  \/ (exists i t hu, e = (dht_id i, [("t", t); ("h", hu)])).

(** The device addresses that the buses enumerate, bus after bus. *)
Definition scanned (h : Hardware) : list (list byte) :=
  flat_map bus_scan (sensors_ds h).

(** The value of a hexadecimal digit. *)
Definition hex_val (c : ascii) : N :=
  match c with
  | "0" => 0 | "1" => 1 | "2" => 2 | "3" => 3 | "4" => 4 | "5" => 5
  | "6" => 6 | "7" => 7 | "8" => 8 | "9" => 9 | "a" => 10 | "b" => 11
  | "c" => 12 | "d" => 13 | "e" => 14 | _ => 15
  end%char%N.

(** The relay operations among some events. *)
Definition is_relay_op (e : event) : bool :=
  match e with
  | RelayOn _ | RelayOff _ => true
  | _ => false
  end.

Definition relay_ops (es : list event) : list event := filter is_relay_op es.

(** Events that are console messages or operations on the named relays. *)
Definition on_relays (names : list string) (e : event) : Prop :=
  match e with
  | RelayOn n | RelayOff n => In n names
  | Print _ => True
  | _ => False
  end.

(** From [w] to [w']: the controller and the sensors are as they were, the
    relays keep their names and, outside [names], their raw values, and what
    was emitted is console messages and at most [k] operations, all on
    relays of [names]. *)
Definition acts (names : list string) (k : nat) (w w' : World) : Prop :=
  self w' = self w
  /\ sensors_ds (hw w') = sensors_ds (hw w)
  /\ sensors_dht (hw w') = sensors_dht (hw w)
  /\ Dict.keys (relays (hw w')) = Dict.keys (relays (hw w))
  /\ (forall n, ~ In n names ->
                Dict.get n (relays (hw w')) = Dict.get n (relays (hw w)))
  /\ exists es,
       out w' = out w ++ es
       /\ Forall (on_relays names) es
       /\ (length (relay_ops es) <= k)%nat.

(** All relays driven to the raw value 1. *)
Definition all_on (h : Hardware) : Hardware :=
  {| relays := map (fun kv => (fst kv, 1)) (relays h);
     sensors_ds := sensors_ds h;
     sensors_dht := sensors_dht h |}.

(** Events that are neither a relay operation nor the announcement of a
    maintenance run. *)
Definition quiet (e : event) : Prop :=
  is_relay_op e = false /\ e <> Print msg_running_maintenance.

(** The configuration of a controller: its fields but the reading table and
    the timestamp. *)
Definition config (c : Control) : Control :=
  set_last_read 0 (set_sensors Dict.empty c).

(** From [w] to [w']: the configuration is the same and the log has only
    grown. *)
Definition evolves (w w' : World) : Prop :=
  config (self w') = config (self w)
  /\ exists es, out w' = out w ++ es.

(** A computation whose effect is within a relation, whatever the world. *)
Definition Respects (R : World -> World -> Prop) {A} (m : M A) : Prop :=
  forall w, R w (fst (m w)).

(** What [start] emits before the first iteration of the loop. *)
Definition startup_events (c : Control) : list event :=
  [SocketBind "0.0.0.0" 80; SocketListen 2; DisplayShow "RUN ";
   Print msg_starting_timer;
   TimerInit (sensor_interval c) PERIODIC cb_update_sensors;
   PollRegister].

(** * Properties *)

(** ** The constructor *)

Lemma py_or_unset_zero x d : py_or (unset_zero x) d = py_or x d.
Proof. destruct x as [[| p | p] |]; reflexivity. Qed.

Lemma py_or_nonzero x d : d <> 0 -> py_or x d <> 0.
Proof.
  intros Hd. unfold py_or. destruct x as [v |]; [| exact Hd].
  destruct (Z.eqb_spec v 0); assumption.
Qed.

(** C9.  Passing [0] for an interval is the same as passing [None]: the
    constructor stores the default (30000, 10000, 800 and 1000 ms), and no
    argument makes it store an interval of zero. *)
Theorem zero_interval_is_default :
  forall ci si pi di f l1 h1 i1 l2 h2 i2 l3 h3 i3,
    Control_init ci si pi di f l1 h1 i1 l2 h2 i2 l3 h3 i3
    = Control_init (unset_zero ci) (unset_zero si) (unset_zero pi)
        (unset_zero di) f l1 h1 i1 l2 h2 i2 l3 h3 i3
    /\ check_interval
         (Control_init (Some 0) si pi di f l1 h1 i1 l2 h2 i2 l3 h3 i3) = 30000
    /\ sensor_interval
         (Control_init ci (Some 0) pi di f l1 h1 i1 l2 h2 i2 l3 h3 i3) = 10000
    /\ prep_interval
         (Control_init ci si (Some 0) di f l1 h1 i1 l2 h2 i2 l3 h3 i3) = 800
    /\ display_interval
         (Control_init ci si pi (Some 0) f l1 h1 i1 l2 h2 i2 l3 h3 i3) = 1000
    /\ (let c := Control_init ci si pi di f l1 h1 i1 l2 h2 i2 l3 h3 i3 in
        check_interval c <> 0 /\ sensor_interval c <> 0
        /\ prep_interval c <> 0 /\ display_interval c <> 0).
Proof.
  intros. split; [| repeat split; try reflexivity].
  - unfold Control_init. now rewrite !py_or_unset_zero.
  - now apply py_or_nonzero.
  - now apply py_or_nonzero.
  - now apply py_or_nonzero.
  - now apply py_or_nonzero.
Qed.

(** ** The deltas of the loop *)

Lemma floor_delta_div n : floor_delta n = (9 * n) / 10.
Proof. reflexivity. Qed.

(** On a negative interval [int()] rounds toward zero, above the floor. *)
Example check_delta_negative : check_delta (-5) = -4 /\ floor_delta (-5) = -5.
Proof. split; vm_compute; reflexivity. Qed.

(** The binary64 product on the two default intervals, and on every
    interval up to 100000 ms. *)
Lemma binary64_defaults :
  Binary64.delta 30000 = 27000 /\ Binary64.delta 1000 = 900.
Proof. split; vm_compute; reflexivity. Qed.

Lemma binary64_agrees : Binary64.agree (Z.to_nat 100001) 0 = true.
Proof. vm_compute. reflexivity. Qed.

Lemma agree_spec k : forall lo,
  Binary64.agree k lo = true ->
  forall n, lo <= n < lo + Z.of_nat k -> Binary64.delta n = floor_delta n.
Proof.
  induction k as [| k IH]; intros lo H n Hn; [lia |].
  cbn [Binary64.agree] in H. apply andb_true_iff in H as [H1 H2].
  destruct (Z.eq_dec n lo) as [-> | Hne].
  - now apply Z.eqb_eq.
  - apply (IH (lo + 1)); [exact H2 | lia].
Qed.

(** C8, as the specification states it, fails: [int()] truncates toward
    zero, so a negative interval gives a delta above the floor, and the
    binary64 product reaches the next integer on large intervals, the first
    of which is 1250999896491811. *)
Lemma deltas_are_not_always_floor :
  check_delta (-5) = -4
  /\ floor_delta (-5) = -5
  /\ check_delta 1250999896491811 = 1125899906842630
  /\ floor_delta 1250999896491811 = 1125899906842629
  /\ ~ (forall interval, check_delta interval = floor_delta interval).
Proof.
  split; [vm_compute; reflexivity |].
  split; [vm_compute; reflexivity |].
  split; [vm_compute; reflexivity |].
  split; [vm_compute; reflexivity |].
  intros H. specialize (H (-5)). vm_compute in H. discriminate H.
Qed.

(** C8, amended.  [loop] computes [check_delta] and [display_delta] as
    [int(interval * 0.9)] in binary64; for every interval from 0 to 100000
    ms this is the floor of 0.9 times the interval, and for 30000 and 1000
    the deltas are 27000 and 900. *)
Theorem deltas_are_floor :
  forall interval : Z,
    0 <= interval <= 100000 ->
    check_delta interval = floor_delta interval
    /\ display_delta interval = floor_delta interval
    /\ check_delta 30000 = 27000
    /\ display_delta 1000 = 900.
Proof.
  intros n Hn.
  assert (H : Binary64.delta n = floor_delta n).
  { apply (agree_spec (Z.to_nat 100001) 0 binary64_agrees). lia. }
  unfold check_delta, display_delta.
  split; [exact H |]. split; [exact H |].
  exact binary64_defaults.
Qed.

Lemma deltas_are_floor_witness :
  0 <= 30000 <= 100000
  /\ check_delta 30000 = floor_delta 30000
  /\ display_delta 30000 = floor_delta 30000.
Proof.
  split; [lia |].
  split; [apply (deltas_are_floor 30000); lia |].
  apply (deltas_are_floor 30000); lia.
Defined.

(** ** The monad *)

Lemma bind_return {A B} (m : M A) (k : A -> M B) w w' a :
  m w = (w', Return a) -> bind m k w = k a w'.
Proof. intros H. unfold bind. now rewrite H. Qed.

Lemma bind_raise {A B} (m : M A) (k : A -> M B) w w' e :
  m w = (w', Raise e) -> bind m k w = (w', Raise e).
Proof. intros H. unfold bind. now rewrite H. Qed.

Lemma emit_logged e w : emit e w = (logged [e] w, Return tt).
Proof. reflexivity. Qed.

Lemma logged_logged es es' w : logged es' (logged es w) = logged (es ++ es') w.
Proof. unfold logged. cbn. now rewrite app_assoc. Qed.

Lemma logged_nil w : logged [] w = w.
Proof. destruct w. unfold logged. cbn. now rewrite app_nil_r. Qed.

Lemma relay_on_run name w :
  relay_on name w = (switched name 1 (logged [RelayOn name] w), Return tt).
Proof. reflexivity. Qed.

Lemma relay_off_run name w :
  relay_off name w = (switched name 0 (logged [RelayOff name] w), Return tt).
Proof. reflexivity. Qed.

(** Unfolds one run of the effects of a method down to the final world. *)
Ltac run :=
  unfold bind, print, emit, modify, gets, ret, raise, update_hw, update_self,
    relay_on, relay_off, display_show, logged, switched in *;
  cbn [fst snd self hw out] in *.

(** ** Dictionaries *)

Lemma get_set_same {V} k (v : V) d : Dict.get k (Dict.set k v d) = Some v.
Proof.
  induction d as [| [k' v'] d IH]; cbn.
  - now rewrite String.eqb_refl.
  - destruct (String.eqb_spec k k') as [-> | Hne]; cbn.
    + now rewrite String.eqb_refl.
    + destruct (String.eqb_spec k k'); [contradiction | exact IH].
Qed.

Lemma get_set_other {V} k k' (v : V) d :
  k <> k' -> Dict.get k' (Dict.set k v d) = Dict.get k' d.
Proof.
  intros Hne. induction d as [| [k0 v0] d IH]; cbn.
  - destruct (String.eqb_spec k' k); [congruence | reflexivity].
  - destruct (String.eqb_spec k k0) as [-> | Hk]; cbn.
    + destruct (String.eqb_spec k' k0); [congruence | reflexivity].
    + destruct (String.eqb_spec k' k0); [reflexivity | exact IH].
Qed.

Lemma keys_set_present {V} k (v : V) d :
  Dict.get k d <> None -> Dict.keys (Dict.set k v d) = Dict.keys d.
Proof.
  induction d as [| [k' v'] d IH]; cbn; [congruence |].
  destruct (String.eqb_spec k k') as [-> | Hne]; cbn; [reflexivity |].
  intros H. f_equal. now apply IH.
Qed.

Lemma get_in_keys {V} k (d : dict V) :
  In k (Dict.keys d) -> Dict.get k d <> None.
Proof.
  induction d as [| [k' v'] d IH]; cbn; [tauto |].
  destruct (String.eqb_spec k k') as [-> | Hne]; [congruence |].
  intros [H | H]; [congruence | now apply IH].
Qed.

Lemma get_not_in_keys {V} k (d : dict V) :
  ~ In k (Dict.keys d) -> Dict.get k d = None.
Proof.
  induction d as [| [k' v'] d IH]; cbn; [reflexivity |].
  intros H. destruct (String.eqb_spec k k') as [-> | Hne]; [tauto |].
  apply IH. tauto.
Qed.

Lemma set_absent {V} k (v : V) d :
  Dict.get k d = None -> Dict.set k v d = d ++ [(k, v)].
Proof.
  induction d as [| [k' v'] d IH]; cbn; [reflexivity |].
  destruct (String.eqb_spec k k'); [congruence |].
  intros H. now rewrite IH.
Qed.

(** ** Hysteresis *)

(** The run of [handle_sensor] once its three look-ups have succeeded. *)
Lemma handle_sensor_live w sensor_name k low high relay_name sensor value raw :
  table_get sensor_name (sensors (self w)) = Some sensor ->
  Dict.get k sensor = Some value ->
  Dict.get relay_name (relays (hw w)) = Some raw ->
  handle_sensor sensor_name k low high relay_name w =
  let w1 := logged [Print (msg_handling_sensor sensor_name)] w in
  match low with
  | None => (w1, Raise TypeError)
  | Some lo =>
      if Qle_bool value lo then
        (switched relay_name 0
           (logged [Print (msg_activating sensor_name value lo relay_name);
                    RelayOff relay_name] w1), Return tt)
      else
        match high with
        | None => (w1, Raise TypeError)
        | Some hi =>
            if Qle_bool hi value then
              (switched relay_name 1
                 (logged [Print (msg_deactivating sensor_name value hi
                                   relay_name);
                          RelayOn relay_name] w1), Return tt)
            else (w1, Return tt)
        end
  end.
Proof.
  intros Hs Hk Hr. unfold handle_sensor. run.
  rewrite Hs, Hk. cbn [hw]. rewrite Hr.
  destruct low as [lo |]; [| reflexivity].
  destruct (Qle_bool value lo).
  - cbn. now rewrite <- app_assoc.
  - destruct high as [hi |]; [| reflexivity].
    destruct (Qle_bool hi value); [| reflexivity].
    cbn. now rewrite <- app_assoc.
Qed.

Lemma Qle_bool_false x y : ~ (x <= y)%Q -> Qle_bool x y = false.
Proof.
  intros H. destruct (Qle_bool x y) eqn:E; [| reflexivity].
  apply Qle_bool_iff in E. contradiction.
Qed.

Lemma Qle_bool_true x y : (x <= y)%Q -> Qle_bool x y = true.
Proof. apply Qle_bool_iff. Qed.

(** C2.  When the sensor, the key and the relay are found: a value at or
    below [low] invokes the relay's [off]; otherwise a value at or above
    [high] invokes its [on]; otherwise nothing is invoked.  Both comparisons
    are inclusive. *)
Theorem handle_sensor_hysteresis :
  forall w sensor_name k lo hi relay_name sensor value raw,
    table_get sensor_name (sensors (self w)) = Some sensor ->
    Dict.get k sensor = Some value ->
    Dict.get relay_name (relays (hw w)) = Some raw ->
    let w1 := logged [Print (msg_handling_sensor sensor_name)] w in
    let run := handle_sensor sensor_name k (Some lo) (Some hi) relay_name w in
    let activated :=
      (switched relay_name 0
         (logged [Print (msg_activating sensor_name value lo relay_name);
                  RelayOff relay_name] w1), Return tt) in
    let deactivated :=
      (switched relay_name 1
         (logged [Print (msg_deactivating sensor_name value hi relay_name);
                  RelayOn relay_name] w1), Return tt) in
    ((value <= lo)%Q -> run = activated)
    /\ (~ (value <= lo)%Q -> (hi <= value)%Q -> run = deactivated)
    /\ (~ (value <= lo)%Q -> ~ (hi <= value)%Q -> run = (w1, Return tt))
    /\ ((value == lo)%Q -> run = activated)
    /\ ((value == hi)%Q -> ~ (value <= lo)%Q -> run = deactivated).
Proof.
  intros w sensor_name k lo hi relay_name sensor value raw Hs Hk Hr.
  cbv zeta.
  rewrite (handle_sensor_live _ _ _ _ _ _ _ _ _ Hs Hk Hr). cbv zeta.
  repeat split.
  - intros H. now rewrite (Qle_bool_true _ _ H).
  - intros H1 H2. now rewrite (Qle_bool_false _ _ H1), (Qle_bool_true _ _ H2).
  - intros H1 H2. now rewrite (Qle_bool_false _ _ H1), (Qle_bool_false _ _ H2).
  - intros H. rewrite Qle_bool_true; [reflexivity |].
    rewrite H. apply Qle_refl.
  - intros H H1. rewrite (Qle_bool_false _ _ H1), Qle_bool_true; [reflexivity |].
    rewrite H. apply Qle_refl.
Qed.

(** The run of [handle_sensor] when one of its three look-ups fails. *)
Lemma handle_sensor_missing :
  forall w sensor_name k low high relay_name,
    table_get sensor_name (sensors (self w)) = None
    \/ (exists sensor,
          table_get sensor_name (sensors (self w)) = Some sensor
          /\ Dict.get k sensor = None)
    \/ Dict.get relay_name (relays (hw w)) = None ->
    exists m,
      skip_message sensor_name k relay_name m
      /\ handle_sensor sensor_name k low high relay_name w
         = (logged [Print (msg_handling_sensor sensor_name); Print m] w,
            Return tt).
Proof.
  intros w sensor_name k low high relay_name H.
  unfold handle_sensor, skip_message. run.
  destruct (table_get sensor_name (sensors (self w))) as [sensor |] eqn:Hs.
  - destruct (Dict.get k sensor) as [value |] eqn:Hk.
    + destruct H as [H | [[s [Hs' Hk']] | H]].
      * discriminate.
      * injection Hs' as <-. congruence.
      * cbn [hw]. rewrite H. eexists. split; [right; right; reflexivity |].
        cbn. now rewrite <- app_assoc.
    + eexists. split; [right; left; reflexivity |].
      cbn. now rewrite <- app_assoc.
  - eexists. split; [left; reflexivity |].
    cbn. now rewrite <- app_assoc.
Qed.

Lemma handle_sensor_hysteresis_witness :
  let off := handle_sensor (Some "ds-ab12") "t" (Some 20%Q) (Some 25%Q) "heat1"
               (example_world (199 # 10)) in
  let on := handle_sensor (Some "ds-ab12") "t" (Some 20%Q) (Some 25%Q) "heat1"
              (example_world (251 # 10)) in
  let hold := handle_sensor (Some "ds-ab12") "t" (Some 20%Q) (Some 25%Q)
                "heat1" (example_world 22) in
  filter (fun e => match e with Print _ => false | _ => true end)
         (out (fst off)) = [RelayOff "heat1"]
  /\ filter (fun e => match e with Print _ => false | _ => true end)
            (out (fst on)) = [RelayOn "heat1"]
  /\ out (fst hold) = [Print (msg_handling_sensor (Some "ds-ab12"))]
  /\ snd hold = Return tt.
Proof.
  cbv zeta.
  pose proof (handle_sensor_hysteresis (example_world (199 # 10))
                (Some "ds-ab12") "t" 20 25 "heat1" [("t", 199 # 10)]
                (199 # 10) 1 eq_refl eq_refl eq_refl) as [Hoff _].
  pose proof (handle_sensor_hysteresis (example_world (251 # 10))
                (Some "ds-ab12") "t" 20 25 "heat1" [("t", 251 # 10)]
                (251 # 10) 1 eq_refl eq_refl eq_refl) as [_ [Hon _]].
  pose proof (handle_sensor_hysteresis (example_world 22)
                (Some "ds-ab12") "t" 20 25 "heat1" [("t", 22%Q)]
                22 1 eq_refl eq_refl eq_refl) as [_ [_ [Hhold _]]].
  rewrite Hoff, Hon, Hhold.
  - repeat split.
  - unfold Qle. cbn. lia.
  - unfold Qle. cbn. lia.
  - unfold Qle. cbn. lia.
  - unfold Qle. cbn. lia.
  - unfold Qle. cbn. lia.
Defined.

(** C4.  When the sensor id is not in the table, or its reading lacks the
    key, or the relay does not exist, [handle_sensor] logs the reason and
    returns: nothing else is emitted, nothing is raised, and the controller
    and the hardware are as before. *)
Theorem handle_sensor_skips :
  forall w sensor_name k low high relay_name,
    table_get sensor_name (sensors (self w)) = None
    \/ (exists sensor,
          table_get sensor_name (sensors (self w)) = Some sensor
          /\ Dict.get k sensor = None)
    \/ Dict.get relay_name (relays (hw w)) = None ->
    exists m,
      skip_message sensor_name k relay_name m
      /\ handle_sensor sensor_name k low high relay_name w
         = (logged [Print (msg_handling_sensor sensor_name); Print m] w,
            Return tt).
Proof. exact handle_sensor_missing. Qed.

Lemma handle_sensor_skips_witness :
  exists m,
    handle_sensor (Some "ds-0000") "t" None None "heat1" (example_world 22)
    = (logged [Print (msg_handling_sensor (Some "ds-0000")); Print m]
         (example_world 22), Return tt).
Proof.
  destruct (handle_sensor_skips (example_world 22) (Some "ds-0000") "t"
              None None "heat1" (or_introl eq_refl)) as [m [_ Hm]].
  exists m. exact Hm.
Defined.

(** ** Maintenance *)

Lemma steady_refl w : steady w w.
Proof. split; reflexivity. Qed.

Lemma steady_trans w1 w2 w3 : steady w1 w2 -> steady w2 w3 -> steady w1 w3.
Proof. intros [H1 H2] [H3 H4]. split; congruence. Qed.

Lemma steady_logged es w : steady w (logged es w).
Proof. split; reflexivity. Qed.

Lemma steady_switched name raw w :
  Dict.get name (relays (hw w)) <> None -> steady w (switched name raw w).
Proof.
  intros H. split; [reflexivity |]. cbn. now apply keys_set_present.
Qed.

Lemma get_none_keys {V} k (d d' : dict V) :
  Dict.keys d' = Dict.keys d -> Dict.get k d <> None -> Dict.get k d' <> None.
Proof.
  intros Hk H. apply get_in_keys. rewrite Hk.
  destruct (in_dec string_dec k (Dict.keys d)) as [Hin | Hout]; [exact Hin |].
  now apply get_not_in_keys in Hout.
Qed.

Lemma live_channel_steady w w' sensor_name k relay_name :
  steady w w' ->
  live_channel w sensor_name k relay_name ->
  live_channel w' sensor_name k relay_name.
Proof.
  intros [Hself Hkeys] (sensor & value & raw & Hs & Hk & Hr).
  assert (Hr' : Dict.get relay_name (relays (hw w')) <> None).
  { apply (get_none_keys _ _ _ Hkeys). congruence. }
  destruct (Dict.get relay_name (relays (hw w'))) as [raw' |] eqn:E;
    [| congruence].
  exists sensor, value, raw'. rewrite Hself. auto.
Qed.

(** [handle_sensor] returns or raises a type error, and leaves the world
    steady. *)
Lemma handle_sensor_steady sensor_name k low high relay_name w :
  steady w (fst (handle_sensor sensor_name k low high relay_name w))
  /\ (snd (handle_sensor sensor_name k low high relay_name w) = Return tt
      \/ snd (handle_sensor sensor_name k low high relay_name w)
         = Raise TypeError).
Proof.
  destruct (table_get sensor_name (sensors (self w))) as [sensor |] eqn:Hs.
  2: { destruct (handle_sensor_missing w sensor_name k low high relay_name
                   (or_introl Hs)) as [m [_ ->]].
       split; [apply steady_logged | now left]. }
  destruct (Dict.get k sensor) as [value |] eqn:Hk.
  2: { destruct (handle_sensor_missing w sensor_name k low high relay_name)
         as [m [_ ->]]; [right; left; eauto |].
       split; [apply steady_logged | now left]. }
  destruct (Dict.get relay_name (relays (hw w))) as [raw |] eqn:Hr.
  2: { destruct (handle_sensor_missing w sensor_name k low high relay_name)
         as [m [_ ->]]; [now right; right |].
       split; [apply steady_logged | now left]. }
  rewrite (handle_sensor_live _ _ _ _ _ _ _ _ _ Hs Hk Hr). cbv zeta.
  assert (Hsw : forall raw' es,
             steady w (switched relay_name raw'
                         (logged es
                            (logged [Print (msg_handling_sensor sensor_name)]
                               w)))).
  { intros raw' es. rewrite logged_logged.
    eapply steady_trans; [apply steady_logged |].
    apply steady_switched. cbn. congruence. }
  destruct low as [lo |]; [| split; [apply steady_logged | now right]].
  destruct (Qle_bool value lo); [split; [apply Hsw | now left] |].
  destruct high as [hi |]; [| split; [apply steady_logged | now right]].
  destruct (Qle_bool hi value); split;
    first [apply Hsw | apply steady_logged | now left].
Qed.

Lemma handle_sensor_unguarded w sensor_name k high relay_name :
  live_channel w sensor_name k relay_name ->
  handle_sensor sensor_name k None high relay_name w
  = (logged [Print (msg_handling_sensor sensor_name)] w, Raise TypeError).
Proof.
  intros (sensor & value & raw & Hs & Hk & Hr).
  now rewrite (handle_sensor_live _ _ _ _ _ _ _ _ _ Hs Hk Hr).
Qed.

(** Sequencing with a computation that raises a type error wherever it is
    reached. *)
Lemma then_raises (m k : M unit) w :
  (snd (m w) = Return tt \/ snd (m w) = Raise TypeError) ->
  snd (k (fst (m w))) = Raise TypeError ->
  snd (bind m (fun _ => k) w) = Raise TypeError.
Proof.
  unfold bind. destruct (m w) as [w' [[] | e]]; cbn; intros [H | H] Hk;
    congruence.
Qed.

Lemma do_maintenance_unguarded w :
  unguarded w -> snd (do_maintenance w) = Raise TypeError.
Proof.
  unfold unguarded. cbv zeta. intros H. unfold do_maintenance.
  unfold bind at 1. unfold gets at 1. cbv iota beta.
  set (c := self w) in *.
  destruct (handle_sensor_steady (temp1_id c) "t" (temp1_low c) (temp1_high c)
              "heat1" w) as [S1 R1].
  destruct H as [[L E] | H].
  { rewrite E. rewrite (bind_raise _ _ _ _ _ (handle_sensor_unguarded _ _ _ _ _ L)).
    reflexivity. }
  apply then_raises; [exact R1 |].
  set (w1 := fst (handle_sensor (temp1_id c) "t" (temp1_low c) (temp1_high c)
                    "heat1" w)) in *.
  destruct (handle_sensor_steady (temp2_id c) "t" (temp2_low c) (temp2_high c)
              "heat2" w1) as [S2 R2].
  destruct H as [[L E] | [L E]].
  { rewrite E.
    rewrite (bind_raise _ _ _ _ _
               (handle_sensor_unguarded _ _ _ _ _
                  (live_channel_steady _ _ _ _ _ S1 L))).
    reflexivity. }
  apply then_raises; [exact R2 |].
  rewrite E.
  rewrite (handle_sensor_unguarded _ _ _ _ _
             (live_channel_steady _ _ _ _ _
                (steady_trans _ _ _ S1 S2) L)).
  reflexivity.
Qed.

(** ** The display generator *)

Lemma sensors_shows_cons f i r rest :
  sensors_shows f i (r :: rest)
  = items_shows f i (Dict.items r) ++ sensors_shows f (S i) rest.
Proof. reflexivity. Qed.

Lemma items_shows_cons f i k v items :
  items_shows f i ((k, v) :: items)
  = label_text i k :: value_text (format_value f k v) :: items_shows f i items.
Proof. reflexivity. Qed.

(** The outer loop shows the head of what remains and suspends, or shows the
    relay summary when nothing remains. *)
Lemma run_sensors_step f values : forall i w,
  match sensors_shows f i values with
  | [] =>
      run_sensors f i values w
      = (logged [DisplayShow (relay_summary (hw w))] w, Return at_top)
  | s :: l =>
      exists g,
        run_sensors f i values w = (logged [DisplayShow s] w, Return g)
        /\ forall t, remaining f t g = l
  end.
Proof.
  induction values as [| r rest IH]; intros i w.
  - reflexivity.
  - rewrite sensors_shows_cons. cbn [run_sensors].
    destruct (Dict.items r) as [| [k v] items] eqn:E.
    + cbn [items_shows flat_map app run_items]. apply IH.
    + rewrite items_shows_cons. cbn [app run_items].
      eexists. split; [reflexivity |]. intros t. reflexivity.
Qed.

(** One step of the generator, in terms of what remains of the pass. *)
Lemma next_step g w :
  match remaining (display_f (self w)) (sensors (self w)) g with
  | [] =>
      next g w = (logged [DisplayShow (relay_summary (hw w))] w, Return at_top)
  | s :: l =>
      exists g',
        next g w = (logged [DisplayShow s] w, Return g')
        /\ forall t, remaining (display_f (self w)) t g' = l
  end.
Proof.
  destruct g as [| i v items rest | i items rest]; cbn [remaining].
  - unfold pass_shows, next. unfold bind at 1. unfold gets at 1.
    cbv iota beta. apply run_sensors_step.
  - eexists. split; [reflexivity |]. intros t. reflexivity.
  - cbn [next]. unfold bind at 1. unfold gets at 1. cbv iota beta.
    destruct items as [| [k v] items].
    + cbn [items_shows flat_map app run_items]. apply run_sensors_step.
    + rewrite items_shows_cons. cbn [app run_items].
      eexists. split; [reflexivity |]. intros t. reflexivity.
Qed.

(** From any point of a pass, the generator shows what remains, then the
    relay summary, and is back at the top. *)
Lemma advance_to_top l : forall g w,
  remaining (display_f (self w)) (sensors (self w)) g = l ->
  advance (S (length l)) g w
  = (logged (map DisplayShow l ++ [DisplayShow (relay_summary (hw w))]) w,
     Return at_top).
Proof.
  induction l as [| s l IH]; intros g w Hg.
  - pose proof (next_step g w) as H. rewrite Hg in H.
    cbn [advance length]. now rewrite (bind_return _ _ _ _ _ H).
  - pose proof (next_step g w) as H. rewrite Hg in H.
    destruct H as [g' [H Hrem]].
    change (advance (S (length (s :: l))) g)
      with (bind (next g) (fun g' => advance (S (length l)) g')).
    rewrite (bind_return _ _ _ _ _ H).
    rewrite (IH g' (logged [DisplayShow s] w) (Hrem _)).
    now rewrite logged_logged.
Qed.

Lemma length_items_shows f i items :
  length (items_shows f i items) = (2 * length items)%nat.
Proof.
  induction items as [| [k v] items IH]; [reflexivity |].
  rewrite items_shows_cons. cbn [length]. rewrite IH. lia.
Qed.

Lemma length_sensors_shows f values : forall i,
  length (sensors_shows f i values)
  = (2 * list_sum (map (fun r => length (Dict.items r)) values))%nat.
Proof.
  induction values as [| r rest IH]; intros i; [reflexivity |].
  rewrite sensors_shows_cons, length_app, length_items_shows, IH.
  cbn [map]. unfold list_sum. cbn [fold_right]. lia.
Qed.

(** Every step of the generator shows one string and suspends again. *)
Lemma next_returns g w :
  exists s g', next g w = (logged [DisplayShow s] w, Return g').
Proof.
  generalize (next_step g w).
  destruct (remaining (display_f (self w)) (sensors (self w)) g).
  - eauto.
  - intros [g' [H _]]. eauto.
Qed.

Lemma advance_returns n : forall g w,
  exists l g',
    advance n g w = (logged (map DisplayShow l) w, Return g')
    /\ length l = n.
Proof.
  induction n as [| n IH]; intros g w.
  - exists [], g. split; [| reflexivity]. cbn. now rewrite logged_nil.
  - destruct (next_returns g w) as [s [g1 H1]].
    destruct (IH g1 (logged [DisplayShow s] w)) as [l [g2 [H2 Hl]]].
    exists (s :: l), g2. split; [| cbn; now rewrite Hl].
    cbn [advance]. rewrite (bind_return _ _ _ _ _ H1), H2.
    now rewrite logged_logged.
Qed.

(** The conversion on the two values that the specification gives. *)
Example fahrenheit_values :
  format_value true "t" 0 = "32.0F" /\ format_value true "t" 100 = "212.0F".
Proof. split; reflexivity. Qed.

(** ** The display on binary64 readings *)
















Section Binary64Display.

Import PrimFloat.

(** The exact values behind the numbers of the example: [22.5] is its own
    value, [0.1] is not a tenth. *)
Example exact_values :
  (FloatDisplay.exact 22.5 == 45 # 2)%Q
  /\ (FloatDisplay.exact (-18) == - (18))%Q
  /\ (FloatDisplay.exact (1 / 10)
      == 3602879701896397 # 36028797018963968)%Q.
Proof. split; [| split]; vm_compute; reflexivity. Qed.




End Binary64Display.

(** ** The status snapshot and the relay summary *)

Lemma fold_set_fresh {V} (d : dict V) : forall acc,
  NoDup (Dict.keys acc ++ Dict.keys d) ->
  fold_left (fun acc '(k, v) => Dict.set k v acc) d acc = acc ++ d.
Proof.
  induction d as [| [k v] d IH]; intros acc H; cbn [fold_left].
  - now rewrite app_nil_r.
  - assert (Hk : Dict.get k acc = None).
    { apply get_not_in_keys. cbn in H.
      apply NoDup_remove_2 in H. intros Hin. apply H.
      apply in_or_app. now left. }
    rewrite (set_absent _ _ _ Hk), IH.
    + now rewrite <- app_assoc.
    + unfold Dict.keys in *. rewrite map_app, <- app_assoc. exact H.
Qed.

(** On a well-formed relay dictionary the snapshot is the dictionary of the
    raw values itself: same names, same order, same values. *)
Lemma relay_state_run w :
  Dict.ok (relays (hw w)) -> relay_state w = (w, Return (relays (hw w))).
Proof.
  intros H. unfold relay_state, gets, Dict.items.
  now rewrite (fold_set_fresh _ Dict.empty H).
Qed.

Lemma get_nth {V} (d : dict V) : forall i k v,
  Dict.ok d -> nth_error d i = Some (k, v) -> Dict.get k d = Some v.
Proof.
  unfold Dict.ok.
  induction d as [| [k' v'] d IH]; intros [| i] k v Hok Hn; cbn in *;
    try discriminate.
  - injection Hn as -> ->. now rewrite String.eqb_refl.
  - apply NoDup_cons_iff in Hok as [Hout Hok].
    destruct (String.eqb_spec k k') as [-> | Hne].
    + exfalso. apply Hout. apply nth_error_In in Hn.
      change k' with (fst (k', v)). now apply in_map.
    + now apply (IH i).
Qed.

Lemma relay_digit_char raw :
  relay_digit raw = String (inverse_digit raw) "".
Proof.
  unfold relay_digit, inverse_digit, py_not, fmt_d_bool.
  now destruct (raw =? 0).
Qed.

Lemma concat_digits_get (l : list Z) : forall i raw,
  nth_error l i = Some raw ->
  String.get i (String.concat "" (map relay_digit l))
  = Some (inverse_digit raw).
Proof.
  induction l as [| x l IH]; intros [| i] raw Hn; cbn in Hn;
    try discriminate.
  - injection Hn as ->. cbn [map String.concat].
    rewrite relay_digit_char. now destruct (map relay_digit l).
  - specialize (IH i raw Hn). cbn [map String.concat].
    rewrite relay_digit_char.
    destruct (map relay_digit l) as [| y ys] eqn:E.
    + destruct l; [destruct i; discriminate | discriminate].
    + exact IH.
Qed.

Lemma concat_digits_length (l : list Z) :
  String.length (String.concat "" (map relay_digit l)) = length l.
Proof.
  induction l as [| x l IH]; [reflexivity |].
  cbn [map String.concat]. rewrite relay_digit_char.
  destruct (map relay_digit l) as [| y ys] eqn:E.
  - destruct l; [reflexivity | discriminate].
  - cbn [length]. rewrite <- IH. reflexivity.
Qed.

(** C3.  In every state, for every relay: the status snapshot maps its name
    to its raw value as it is, while the relay summary line of the display,
    which starts with [r] and has one character per relay in the order of
    the hardware, shows at the relay's position the inverse of that value:
    [1] for a raw 0, [0] for a raw 1. *)
Theorem relay_snapshot_and_summary :
  forall w,
    Dict.ok (relays (hw w)) ->
    (forall i name raw,
        nth_error (relays (hw w)) i = Some (name, raw) ->
        (exists snapshot,
            relay_state w = (w, Return snapshot)
            /\ nth_error snapshot i = Some (name, raw)
            /\ Dict.get name snapshot = Some raw)
        /\ String.get (S i) (relay_summary (hw w)) = Some (inverse_digit raw))
    /\ String.get 0 (relay_summary (hw w)) = Some "r"%char
    /\ String.length (relay_summary (hw w)) = S (length (relays (hw w)))
    /\ inverse_digit 0 = "1"%char
    /\ inverse_digit 1 = "0"%char
    /\ (forall f i,
           run_sensors f i [] w
           = (logged [DisplayShow (relay_summary (hw w))] w, Return at_top)).
Proof.
  intros w Hok. repeat split.
  - exists (relays (hw w)). split; [now apply relay_state_run |].
    split; [assumption | now apply (get_nth _ i)].
  - unfold relay_summary.
    change ("r" +:+ ?x) with (String "r" x). cbn [String.get].
    apply concat_digits_get. unfold Dict.values.
    rewrite nth_error_map. now rewrite H.
  - unfold relay_summary.
    change ("r" +:+ ?x) with (String "r" x). cbn [String.length].
    rewrite concat_digits_length. unfold Dict.values. now rewrite length_map.
Qed.

Lemma relay_snapshot_and_summary_witness :
  snd (relay_state (example_world 22))
  = Return [("heat1", 1); ("heat2", 0); ("humidifier", 1)]
  /\ relay_summary (hw (example_world 22)) = "r010"
  /\ String.get 2 (relay_summary (hw (example_world 22))) = Some "1"%char.
Proof.
  assert (Hok : Dict.ok (relays (hw (example_world 22)))).
  { unfold Dict.ok. cbn. repeat constructor; cbn; intuition discriminate. }
  destruct (relay_snapshot_and_summary (example_world 22) Hok) as [H _].
  destruct (H 1%nat "heat2" 0 eq_refl) as [_ H2].
  split; [reflexivity | split; [reflexivity | exact H2]].
Defined.

(** ** The status endpoint *)


Lemma drain_run lines : forall w,
  drain lines w = (logged (map ClientReadline (request_reads lines)) w,
                   Return tt).
Proof.
  induction lines as [| line rest IH]; intros w; cbn [drain request_reads].
  - reflexivity.
  - rewrite (bind_return _ _ _ _ _ (emit_logged _ _)).
    unfold blank. destruct (String.eqb line "" || String.eqb line CRLF)%bool.
    + reflexivity.
    + rewrite IH. cbn [map]. now rewrite logged_logged.
Qed.









(** ** The names of the relays are an invariant of the loop *)

Create HintDb keeps.

Lemma Keeps_ret {A} (a : A) : Keeps (ret a).
Proof. intros w. reflexivity. Qed.

Lemma Keeps_raise {A} e : Keeps (@raise A e).
Proof. intros w. reflexivity. Qed.

Lemma Keeps_gets {A} (f : World -> A) : Keeps (gets f).
Proof. intros w. reflexivity. Qed.

Lemma Keeps_emit e : Keeps (emit e).
Proof. intros w. reflexivity. Qed.

Lemma Keeps_print m : Keeps (print m).
Proof. intros w. reflexivity. Qed.

Lemma Keeps_display_show s : Keeps (display_show s).
Proof. intros w. reflexivity. Qed.

Lemma Keeps_update_self f : Keeps (update_self f).
Proof. intros w. reflexivity. Qed.

Lemma Keeps_set_sensed ds dht : Keeps (update_hw (set_sensed ds dht)).
Proof. intros w. reflexivity. Qed.

Lemma Keeps_bind {A B} (m : M A) (k : A -> M B) :
  Keeps m -> (forall a, Keeps (k a)) -> Keeps (bind m k).
Proof.
  intros Hm Hk w. unfold bind. specialize (Hm w).
  destruct (m w) as [w' [a | e]]; cbn [fst] in *.
  - unfold relays_kept in *. now rewrite (Hk a w').
  - exact Hm.
Qed.

Lemma Keeps_for_each {A} (xs : list A) (body : A -> M unit) :
  (forall x, Keeps (body x)) -> Keeps (for_each xs body).
Proof.
  intros H. induction xs as [| x xs IH]; cbn [for_each].
  - apply Keeps_ret.
  - apply Keeps_bind; [apply H | intros _; exact IH].
Qed.

Lemma Keeps_if {A} (b : bool) (m1 m2 : M A) :
  Keeps m1 -> Keeps m2 -> Keeps (if b then m1 else m2).
Proof. now destruct b. Qed.

#[local] Hint Resolve Keeps_ret Keeps_raise Keeps_gets Keeps_emit Keeps_print
  Keeps_display_show Keeps_update_self Keeps_set_sensed Keeps_if : keeps.
#[local] Hint Extern 2 (Keeps (bind _ _)) =>
  apply Keeps_bind; [| intro] : keeps.
#[local] Hint Extern 2 (Keeps (for_each _ _)) =>
  apply Keeps_for_each; intro : keeps.

Lemma Keeps_handle_sensor sensor_name k low high relay_name :
  Keeps (handle_sensor sensor_name k low high relay_name).
Proof.
  intros w.
  exact (proj2 (proj1 (handle_sensor_steady sensor_name k low high relay_name
                         w))).
Qed.

Lemma Keeps_do_maintenance : Keeps do_maintenance.
Proof.
  unfold do_maintenance.
  auto 10 using Keeps_handle_sensor with keeps.
Qed.

Lemma Keeps_next g : Keeps (next g).
Proof.
  intros w. destruct (next_returns g w) as [s [g' ->]]. reflexivity.
Qed.

Lemma Keeps_drain lines : Keeps (drain lines).
Proof.
  induction lines as [| line rest IH]; cbn [drain]; auto with keeps.
Qed.

Lemma Keeps_handle_client lines addr : Keeps (handle_client lines addr).
Proof.
  unfold handle_client, relay_state.
  auto 10 using Keeps_drain with keeps.
Qed.

Lemma Keeps_read_sensors now : Keeps (read_sensors now).
Proof.
  unfold read_sensors, assign_sensor. auto 12 with keeps.
Qed.

Lemma Keeps_update_sensors : Keeps update_sensors.
Proof.
  unfold update_sensors, prep_sensors. auto 12 with keeps.
Qed.

Lemma Keeps_loop_body it st : Keeps (loop_body it st).
Proof.
  unfold loop_body.
  auto 12 using Keeps_next, Keeps_do_maintenance, Keeps_handle_client
    with keeps.
Qed.

Lemma Keeps_loop_from script stop : forall st, Keeps (loop_from script stop st).
Proof.
  induction script as [| [it | | now | ds dht] script IH]; intros st;
    cbn [loop_from];
    auto 6 using Keeps_loop_body, Keeps_update_sensors, Keeps_read_sensors
      with keeps.
Qed.

Lemma Keeps_try_block t0 t1 script stop : Keeps (try_block t0 t1 script stop).
Proof.
  unfold try_block, loop, start_timer.
  auto 10 using Keeps_loop_from with keeps.
Qed.

(** ** Shutdown *)

(** The loop has no normal exit. *)
Lemma loop_from_raises script stop : forall st w,
  exists w' e, loop_from script stop st w = (w', Raise e).
Proof.
  induction script as [| [it | | now | ds dht] script IH]; intros st w;
    cbn [loop_from].
  - eexists _, _. reflexivity.
  - unfold bind. destruct (loop_body it st w) as [w1 [st1 | e]]; eauto.
  - unfold bind. destruct (update_sensors w) as [w1 [[] | e]]; eauto.
  - unfold bind. destruct (read_sensors now w) as [w1 [[] | e]]; eauto.
  - unfold bind.
    destruct (update_hw (set_sensed ds dht) w) as [w1 [[] | e]]; eauto.
Qed.

Lemma start_timer_run w :
  start_timer w
  = (logged [Print msg_starting_timer;
             TimerInit (sensor_interval (self w)) PERIODIC cb_update_sensors]
       w, Return tt).
Proof.
  unfold start_timer, print, bind, gets, emit, modify, logged.
  cbn [self hw out]. now rewrite <- app_assoc.
Qed.

Lemma try_block_raises t0 t1 script stop w :
  exists w' e, try_block t0 t1 script stop w = (w', Raise e).
Proof.
  unfold try_block, loop, display_show.
  rewrite (bind_return _ _ _ _ _ (emit_logged _ _)).
  rewrite (bind_return _ _ _ _ _ (start_timer_run _)).
  rewrite (bind_return _ _ _ _ _ (emit_logged _ _)).
  apply loop_from_raises.
Qed.

(** Switching every relay off emits one [on] per name, in order. *)
Lemma for_each_relay_on names : forall w,
  exists h,
    for_each names relay_on w
    = ({| self := self w; hw := h; out := out w ++ map RelayOn names |},
       Return tt).
Proof.
  induction names as [| name names IH]; intros w; cbn [for_each map].
  - exists (hw w). unfold ret. rewrite app_nil_r. now destruct w.
  - rewrite (bind_return _ _ _ _ _ (relay_on_run _ _)).
    destruct (IH (switched name 1 (logged [RelayOn name] w))) as [h ->].
    exists h. cbn [self out switched logged]. now rewrite <- app_assoc.
Qed.

Lemma relays_off_run w :
  exists h,
    relays_off w
    = ({| self := self w; hw := h;
          out := out w
                 ++ Print msg_deactivating_all
                 :: map RelayOn (Dict.keys (relays (hw w))) |},
       Return tt).
Proof.
  unfold relays_off, print.
  rewrite (bind_return _ _ _ _ _ (emit_logged _ _)).
  unfold bind at 1. unfold gets at 1. cbv iota beta.
  destruct (for_each_relay_on (Dict.keys (relays (hw w)))
              (logged [Print msg_deactivating_all] w)) as [h Hh].
  cbn [self hw out logged] in *. rewrite Hh.
  exists h. now rewrite <- app_assoc.
Qed.

(** The [finally] block always runs to its end. *)
Lemma cleanup_run w :
  exists h,
    cleanup w
    = ({| self := self w; hw := h;
          out := out w ++ cleanup_events (Dict.keys (relays (hw w))) |},
       Return tt).
Proof.
  unfold cleanup. destruct (relays_off_run w) as [h Hh].
  rewrite (bind_return _ _ _ _ _ Hh).
  exists h. unfold close_socket, stop_timer, display_show, print.
  unfold bind, emit, modify, cleanup_events.
  cbn [self hw out fst snd]. rewrite <- !app_assoc. reflexivity.
Qed.

Lemma last_cleanup_events names l d :
  last (l ++ cleanup_events names) d = DisplayShow "STOP".
Proof.
  assert (E : cleanup_events names
              = (Print msg_deactivating_all
                 :: map RelayOn names
                 ++ [Print msg_closing_socket; SocketClose;
                     Print msg_stopping_timer; TimerDeinit])
                ++ [DisplayShow "STOP"]).
  { unfold cleanup_events. cbn [app]. f_equal.
    now rewrite <- app_assoc. }
  rewrite E, app_assoc. apply last_last.
Qed.

Lemma init_socket_run w :
  init_socket w
  = (logged [SocketBind "0.0.0.0" 80; SocketListen 2] w, Return tt).
Proof.
  unfold init_socket, bind, emit, modify, logged. cbn [self hw out].
  now rewrite <- app_assoc.
Qed.

Lemma init_poll_run w : init_poll w = (w, Return tt).
Proof. reflexivity. Qed.

Lemma try_finally_raise body final w w1 w2 e :
  body w = (w1, Raise e) ->
  final w1 = (w2, Return tt) ->
  try_finally body final w = (w2, after_cleanup e).
Proof.
  intros Hb Hf. unfold try_finally. rewrite Hb, Hf. now destruct e.
Qed.

(** C6.  The [try] block of [start] never ends normally, and however it ends
    -- with the interrupt, which [start] swallows, or with any other
    exception, which [start] lets through -- the [finally] block runs to its
    end: [on] is invoked on every relay of the hardware, in order, the socket
    is closed, the timer is stopped, and [STOP] is the last string shown. *)
Theorem start_always_cleans_up :
  forall t0 t1 script stop w,
    exists w_exit e w_final,
      try_block t0 t1 script stop
        (logged [SocketBind "0.0.0.0" 80; SocketListen 2] w)
      = (w_exit, Raise e)
      /\ start t0 t1 script stop w = (w_final, after_cleanup e)
      /\ out w_final
         = out w_exit ++ cleanup_events (Dict.keys (relays (hw w_exit)))
      /\ relays_kept w w_exit
      /\ self w_final = self w_exit
      /\ last (out w_final) (DisplayShow "RUN ") = DisplayShow "STOP"
      /\ after_cleanup KeyboardInterrupt = Return tt
      /\ (e <> KeyboardInterrupt -> after_cleanup e = Raise e).
Proof.
  intros t0 t1 script stop w.
  set (w0 := logged [SocketBind "0.0.0.0" 80; SocketListen 2] w).
  destruct (try_block_raises t0 t1 script stop w0) as [w1 [e Hb]].
  destruct (cleanup_run w1) as [h Hc].
  exists w1, e,
    {| self := self w1; hw := h;
       out := out w1 ++ cleanup_events (Dict.keys (relays (hw w1))) |}.
  split; [exact Hb |].
  split.
  { unfold start.
    rewrite (bind_return _ _ _ _ _ (init_socket_run w)).
    rewrite (bind_return _ _ _ _ _ (init_poll_run _)).
    now apply try_finally_raise with (w1 := w1). }
  split; [reflexivity |].
  split.
  { pose proof (Keeps_try_block t0 t1 script stop w0) as Hk.
    rewrite Hb in Hk. exact Hk. }
  split; [reflexivity |].
  split; [apply last_cleanup_events |].
  split; [reflexivity |].
  intros He. destruct e; [contradiction | reflexivity ..].
Qed.

(** ** A missing threshold is fatal *)

Lemma unguarded_steady w w' : steady w w' -> unguarded w -> unguarded w'.
Proof.
  intros S. unfold unguarded. cbv zeta. rewrite (proj1 S).
  intros [[L E] | [[L E] | [L E]]];
    [left | right; left | right; right];
    (split; [now apply (live_channel_steady w) | exact E]).
Qed.

Lemma bind_raise_snd {A B} (m : M A) (k : A -> M B) w e :
  snd (m w) = Raise e -> snd (bind m k w) = Raise e.
Proof.
  unfold bind. destruct (m w) as [w' [a | e']]; cbn; congruence.
Qed.

(** The display step of the loop body returns and leaves the world steady
    and the time of the last check as it was. *)
Lemma display_phase (b : bool) it st w :
  exists w1 st1,
    (if b then
       g <- next (display st) ;;
       ret {| last_check := last_check st;
              last_display := it_after_display it;
              display := g |}
     else ret st) w = (w1, Return st1)
    /\ steady w w1
    /\ last_check st1 = last_check st.
Proof.
  destruct b.
  - destruct (next_returns (display st) w) as [s [g H]].
    rewrite (bind_return _ _ _ _ _ H).
    eexists _, _. split; [reflexivity |].
    split; [apply steady_logged | reflexivity].
  - exists w, st. split; [reflexivity |].
    split; [apply steady_refl | reflexivity].
Qed.

Lemma loop_body_unguarded it st w :
  check_delta (check_interval (self w))
    <= ticks_diff (it_now it) (last_check st) ->
  unguarded w ->
  snd (loop_body it st w) = Raise TypeError.
Proof.
  intros Hdue Hu. unfold loop_body.
  unfold bind at 1. unfold gets at 1. cbv iota beta zeta.
  destruct (display_phase
              (ticks_diff (it_now it) (last_display st)
                 >=? display_delta (display_interval (self w)))
              it st w) as (w1 & st1 & H1 & S1 & Hc).
  rewrite (bind_return _ _ _ _ _ H1).
  apply bind_raise_snd.
  rewrite Hc.
  replace (ticks_diff (it_now it) (last_check st)
             >=? check_delta (check_interval (self w))) with true
    by (symmetry; apply Z.geb_le; exact Hdue).
  unfold print. rewrite (bind_return _ _ _ _ _ (emit_logged _ _)).
  apply bind_raise_snd. apply do_maintenance_unguarded.
  apply (unguarded_steady w); [| exact Hu].
  eapply steady_trans; [exact S1 | apply steady_logged].
Qed.

Lemma try_block_unguarded t0 t1 it script stop w :
  check_delta (check_interval (self w)) <= ticks_diff (it_now it) t0 ->
  unguarded w ->
  snd (try_block t0 t1 (Iterate it :: script) stop w) = Raise TypeError.
Proof.
  intros Hdue Hu.
  unfold try_block, loop, display_show.
  rewrite (bind_return _ _ _ _ _ (emit_logged _ _)).
  rewrite (bind_return _ _ _ _ _ (start_timer_run _)).
  rewrite (bind_return _ _ _ _ _ (emit_logged _ _)).
  rewrite !logged_logged. cbn [loop_from].
  apply bind_raise_snd. apply loop_body_unguarded; [exact Hdue |].
  apply (unguarded_steady w); [apply steady_logged | exact Hu].
Qed.

Lemma start_unguarded t0 t1 it script stop w :
  check_delta (check_interval (self w)) <= ticks_diff (it_now it) t0 ->
  unguarded w ->
  snd (start t0 t1 (Iterate it :: script) stop w) = Raise TypeError.
Proof.
  intros Hdue Hu. unfold start.
  rewrite (bind_return _ _ _ _ _ (init_socket_run w)).
  rewrite (bind_return _ _ _ _ _ (init_poll_run _)).
  set (w0 := logged [SocketBind "0.0.0.0" 80; SocketListen 2] w).
  assert (H : snd (try_block t0 t1 (Iterate it :: script) stop w0)
              = Raise TypeError).
  { apply try_block_unguarded; [exact Hdue |].
    apply (unguarded_steady w); [apply steady_logged | exact Hu]. }
  destruct (try_block t0 t1 (Iterate it :: script) stop w0) as [w1 r] eqn:Hb.
  cbn [snd] in H. subst r.
  destruct (cleanup_run w1) as [h Hc].
  now rewrite (try_finally_raise _ _ _ _ _ _ Hb Hc).
Qed.

(** C10.  When the sensor, the key and the relay of a channel are found and
    its low threshold is [None], [handle_sensor] raises a type error at the
    comparison, right after the line that announces the channel, in place of
    logging and skipping; [do_maintenance] has no handler, so it raises too
    whenever one of its three channels is such a channel, and the error
    leaves the loop and [start] as soon as maintenance is due. *)
Theorem missing_low_threshold_raises :
  (forall w sensor_name k high relay_name,
      live_channel w sensor_name k relay_name ->
      handle_sensor sensor_name k None high relay_name w
      = (logged [Print (msg_handling_sensor sensor_name)] w, Raise TypeError))
  /\ (forall w, unguarded w -> snd (do_maintenance w) = Raise TypeError)
  /\ (forall t0 t1 it script stop w,
         check_delta (check_interval (self w)) <= ticks_diff (it_now it) t0 ->
         unguarded w ->
         snd (start t0 t1 (Iterate it :: script) stop w) = Raise TypeError).
Proof.
  split; [| split].
  - intros. now apply handle_sensor_unguarded.
  - intros. now apply do_maintenance_unguarded.
  - intros. now apply start_unguarded.
Qed.

Lemma unguarded_world_unguarded : unguarded unguarded_world.
Proof.
  right; left. split; [| reflexivity].
  exists [("t", 18%Q); ("h", 55%Q)], 18%Q, 0. repeat split.
Qed.

Lemma missing_low_threshold_raises_witness :
  snd (handle_sensor (Some "dht-0") "t" None None "heat2" unguarded_world)
  = Raise TypeError
  /\ snd (do_maintenance unguarded_world) = Raise TypeError
  /\ snd (start 0 0
            [Iterate {| it_events := []; it_now := 30000;
                        it_after_display := 30001;
                        it_before_check := 30002 |}]
            KeyboardInterrupt unguarded_world) = Raise TypeError.
Proof.
  destruct missing_low_threshold_raises as [H1 [H2 H3]].
  split; [| split].
  - rewrite (H1 unguarded_world (Some "dht-0") "t" None "heat2");
      [reflexivity |].
    exists [("t", 18%Q); ("h", 55%Q)], 18%Q, 0. repeat split.
  - apply H2. exact unguarded_world_unguarded.
  - apply H3; [| exact unguarded_world_unguarded].
    vm_compute. discriminate.
Defined.

(** ** The rebuild of the reading table *)

Module RebuildFacts.
Import Rebuild.

Lemma run_app p q s : run (p ++ q) s = run q (run p s).
Proof. unfold run. apply fold_left_app. Qed.

(** The assignments work on the object that the field refers to, and on no
    other. *)
Lemma run_assigns (l : list (string * reading)) : forall s (t : table),
  heap s !! field s = Some t ->
  field (run (map s_assign l) s) = field s
  /\ stamp (run (map s_assign l) s) = stamp s
  /\ heap (run (map s_assign l) s) !! field s
     = Some (fold_left (fun t a => assign a t) l t)
  /\ forall l', l' <> field s ->
       heap (run (map s_assign l) s) !! l' = heap s !! l'.
Proof.
  induction l as [| a l IH]; intros s t Ht.
  - cbn. auto.
  - change (run (map s_assign (a :: l)) s)
      with (run (map s_assign l) (exec (s_assign a) s)).
    assert (Ht' : heap (exec (s_assign a) s) !! field (exec (s_assign a) s)
                  = Some (assign a t)).
    { cbn [exec heap field]. rewrite lookup_alter_eq, Ht. reflexivity. }
    destruct (IH _ _ Ht') as (Hf & Hs & Hh & Ho).
    split; [exact Hf |]. split; [exact Hs |]. split; [exact Hh |].
    intros l' Hl'. rewrite (Ho l' Hl'). cbn [exec heap field].
    now rewrite lookup_alter_ne.
Qed.

Lemma firstn_statements j h now :
  (j <= length (assignments h))%nat ->
  firstn (S j) (statements h now)
  = s_new :: map s_assign (firstn j (assignments h)).
Proof.
  intros Hj. unfold statements. cbn [firstn]. f_equal.
  rewrite firstn_app, length_map.
  replace (j - length (assignments h))%nat with 0%nat by lia.
  cbn [firstn]. rewrite app_nil_r. apply firstn_map.
Qed.

(** The store after [s_new] and the first [j] assignments. *)
Lemma at_point_inside j h now s :
  is_Some (heap s !! field s) ->
  (j <= length (assignments h))%nat ->
  let s' := at_point (S j) h now s in
  field s' = fresh (dom (heap s))
  /\ field s' <> field s
  /\ heap s' !! field s = heap s !! field s
  /\ shared s' = built j h
  /\ stamp s' = stamp s.
Proof.
  intros Hold Hj. cbv zeta. unfold at_point.
  rewrite (firstn_statements _ _ _ Hj).
  change (run (s_new :: ?p) s) with (run p (exec s_new s)).
  set (l := fresh (dom (heap s))).
  assert (Hl : l <> field s).
  { intros E. pose proof (is_fresh (dom (heap s))) as Hfresh. fold l in Hfresh.
    apply Hfresh. rewrite E. now apply elem_of_dom. }
  assert (Hf1 : field (exec s_new s) = l) by reflexivity.
  assert (Hh1 : heap (exec s_new s) = <[l := (Dict.empty : table)]> (heap s))
    by reflexivity.
  assert (Hs1 : stamp (exec s_new s) = stamp s) by reflexivity.
  generalize dependent (exec s_new s). intros s1 Hf1 Hh1 Hs1.
  assert (Hnew : heap s1 !! field s1 = Some (Dict.empty : table)).
  { rewrite Hh1, Hf1. apply lookup_insert_eq. }
  destruct (run_assigns (firstn j (assignments h)) _ _ Hnew)
    as (Hf & Hs & Hh & Ho).
  split; [congruence |].
  split; [congruence |].
  split.
  { rewrite Ho by congruence. rewrite Hh1. now apply lookup_insert_ne. }
  split; [| congruence].
  unfold shared. rewrite Hf.
  etrans; [exact (f_equal (default (Dict.empty : table)) Hh) | reflexivity].
Qed.

Lemma run_statements h now s :
  is_Some (heap s !! field s) ->
  shared (run (statements h now) s) = built (length (assignments h)) h
  /\ stamp (run (statements h now) s) = now.
Proof.
  intros Hold.
  destruct (at_point_inside (length (assignments h)) h now s Hold
              (Nat.le_refl _)) as (_ & _ & _ & Hsh & _).
  unfold at_point in Hsh. rewrite firstn_statements in Hsh by lia.
  rewrite firstn_all in Hsh.
  unfold statements.
  change (s_new :: map s_assign (assignments h) ++ [s_stamp now])
    with ((s_new :: map s_assign (assignments h)) ++ [s_stamp now]).
  rewrite run_app. split; [exact Hsh | reflexivity].
Qed.

End RebuildFacts.

(** The one-step [read_sensors] ends with the table of the statement-wise
    rebuild and with the new timestamp. *)
Lemma for_each_assign l : forall w,
  for_each l assign_sensor w
  = ({| self :=
          set_sensors
            (fold_left (fun t a => Dict.set (fst a) (snd a) t) l
                       (sensors (self w)))
            (self w);
        hw := hw w; out := out w |}, Return tt).
Proof.
  induction l as [| a l IH]; intros w; cbn [for_each fold_left].
  - unfold ret. now destruct w as [[] ? ?].
  - unfold bind at 1. unfold assign_sensor at 1, update_self, modify.
    cbv iota beta. rewrite IH. reflexivity.
Qed.

Lemma read_sensors_run now w :
  let t := Rebuild.built (length (assignments (hw w))) (hw w) in
  read_sensors now w
  = ({| self := set_last_read now (set_sensors t (self w));
        hw := hw w;
        out := out w ++ [Print msg_read_sensors; Print (msg_sensors t)] |},
     Return tt).
Proof.
  cbv zeta. unfold read_sensors, print.
  rewrite (bind_return _ _ _ _ _ (emit_logged _ _)).
  unfold bind at 1. unfold update_self at 1, modify at 1. cbv iota beta.
  unfold bind at 1. unfold gets at 1. cbv iota beta.
  cbn [hw logged]. rewrite (bind_return _ _ _ _ _ (for_each_assign _ _)).
  unfold Rebuild.built. rewrite firstn_all.
  unfold bind, gets, emit, modify, update_self. cbn [self hw out sensors logged set_sensors].
  rewrite <- app_assoc. reflexivity.
Qed.

Lemma example_store_allocated :
  is_Some (Rebuild.heap Rebuild.example_store
             !! Rebuild.field Rebuild.example_store).
Proof. exists (example_table 22). apply lookup_singleton_eq. Qed.

Lemma example_store_shared :
  Rebuild.shared Rebuild.example_store = example_table 22.
Proof.
  unfold Rebuild.shared.
  etrans; [exact (f_equal (default (Dict.empty : table))
                    (lookup_singleton_eq (M := gmap nat) 0%nat
                       (example_table 22))) |].
  reflexivity.
Qed.

(** C1, as the specification states it, fails: after the first assignment of
    a rebuild, the shared field holds a table with the bus sensor alone,
    which is neither the old table nor the complete new one. *)
Lemma rebuild_exposes_partial_table :
  Rebuild.shared (Rebuild.at_point 2 example_hw 1234 Rebuild.example_store)
  = [("ds-ab12", [("t", 45 # 2)])]
  /\ ~ Rebuild.build_then_publish example_hw 1234 Rebuild.example_store.
Proof.
  destruct (RebuildFacts.at_point_inside 1 example_hw 1234
              Rebuild.example_store example_store_allocated)
    as (_ & _ & _ & Hmid & _); [cbn; lia |].
  destruct (RebuildFacts.run_statements example_hw 1234
              Rebuild.example_store example_store_allocated) as [Hend _].
  split; [exact Hmid |].
  intros H. destruct (H 2%nat) as [E | E].
  - rewrite Hmid, example_store_shared in E. discriminate E.
  - rewrite Hmid, Hend in E. discriminate E.
Qed.

(** C1, amended.  [read_sensors] first assigns a fresh empty table to the
    shared field and then fills that table in place.  At the point that
    follows the first [j] assignments the field refers to the fresh object,
    which holds the table built by those [j] assignments -- the empty table
    for [j = 0] -- while the object of the old table is untouched; after the
    last statement the shared table is the complete new one, the table with
    which the one-step [read_sensors] ends, and the timestamp is the new
    one. *)
Theorem rebuild_fills_shared_table :
  forall h now s,
    is_Some (Rebuild.heap s !! Rebuild.field s) ->
    (forall j,
        (j <= length (assignments h))%nat ->
        let s' := Rebuild.at_point (S j) h now s in
        Rebuild.field s' = fresh (dom (Rebuild.heap s))
        /\ Rebuild.field s' <> Rebuild.field s
        /\ Rebuild.heap s' !! Rebuild.field s
           = Rebuild.heap s !! Rebuild.field s
        /\ Rebuild.shared s' = Rebuild.built j h
        /\ Rebuild.stamp s' = Rebuild.stamp s)
    /\ Rebuild.shared (Rebuild.at_point 1 h now s) = Dict.empty
    /\ Rebuild.shared (Rebuild.run (Rebuild.statements h now) s)
       = Rebuild.built (length (assignments h)) h
    /\ Rebuild.stamp (Rebuild.run (Rebuild.statements h now) s) = now
    /\ (forall w,
           hw w = h ->
           sensors (self (fst (read_sensors now w)))
           = Rebuild.built (length (assignments h)) h
           /\ last_read (self (fst (read_sensors now w))) = now).
Proof.
  intros h now s Hold.
  split; [intros j Hj; now apply RebuildFacts.at_point_inside |].
  split.
  { destruct (RebuildFacts.at_point_inside 0 h now s Hold)
      as (_ & _ & _ & H & _); [lia | exact H]. }
  destruct (RebuildFacts.run_statements h now s Hold) as [H1 H2].
  split; [exact H1 |]. split; [exact H2 |].
  intros w <-. now rewrite read_sensors_run.
Qed.

Lemma rebuild_fills_shared_table_witness :
  Rebuild.shared (Rebuild.at_point 1 example_hw 1234 Rebuild.example_store)
  = Dict.empty
  /\ Rebuild.shared
       (Rebuild.run (Rebuild.statements example_hw 1234)
          Rebuild.example_store)
     = example_table (45 # 2).
Proof.
  destruct (rebuild_fills_shared_table example_hw 1234 Rebuild.example_store
              example_store_allocated) as (_ & H1 & H2 & _).
  split; [exact H1 | exact H2].
Defined.

(** * Further properties *)

(** ** The ids of the sensors *)

Lemma hex_val_digit n : (n < 16)%N -> hex_val (hex_digit n) = n.
Proof.
  intros H.
  destruct n as [| p]; [reflexivity |].
  do 4 (destruct p as [p | p |]; try reflexivity); exfalso; lia.
Qed.

Lemma hex_digit_inj n m :
  (n < 16)%N -> (m < 16)%N -> hex_digit n = hex_digit m -> n = m.
Proof.
  intros Hn Hm E.
  rewrite <- (hex_val_digit n Hn), <- (hex_val_digit m Hm). now rewrite E.
Qed.

Lemma byte_digits_inj x y :
  hex_digit (Byte.to_N x / 16) = hex_digit (Byte.to_N y / 16) ->
  hex_digit (Byte.to_N x mod 16) = hex_digit (Byte.to_N y mod 16) ->
  x = y.
Proof.
  intros Hq Hr.
  pose proof (Byte.to_N_bounded x) as Bx.
  pose proof (Byte.to_N_bounded y) as By.
  apply hex_digit_inj in Hq;
    [| apply N.Div0.div_lt_upper_bound; lia
     | apply N.Div0.div_lt_upper_bound; lia].
  apply hex_digit_inj in Hr; [| apply N.mod_lt; lia | apply N.mod_lt; lia].
  assert (E : Byte.to_N x = Byte.to_N y).
  { rewrite (N.div_mod (Byte.to_N x) 16), (N.div_mod (Byte.to_N y) 16) by lia.
    now rewrite Hq, Hr. }
  assert (E' : Some x = Some y).
  { rewrite <- (Byte.of_to_N x), <- (Byte.of_to_N y). now rewrite E. }
  now injection E'.
Qed.

Lemma hexlify_inj b : forall b', hexlify b = hexlify b' -> b = b'.
Proof.
  induction b as [| x b IH]; intros [| y b'] E; cbn [hexlify] in E;
    try discriminate; [reflexivity |].
  injection E as Hq Hr Ht.
  f_equal; [now apply byte_digits_inj | now apply IH].
Qed.

Lemma fmt_d_inj i j : fmt_d i = fmt_d j -> i = j.
Proof.
  unfold fmt_d. intros E.
  assert (E' : Some (Nat.to_uint i) = Some (Nat.to_uint j)).
  { rewrite <- (NilEmpty.usu (Nat.to_uint i)), <- (NilEmpty.usu (Nat.to_uint j)).
    now rewrite E. }
  injection E' as E'.
  rewrite <- (DecimalNat.Unsigned.of_to i), <- (DecimalNat.Unsigned.of_to j).
  now rewrite E'.
Qed.

Lemma ds_id_inj rom rom' : ds_id rom = ds_id rom' -> rom = rom'.
Proof.
  unfold ds_id. intros E. apply hexlify_inj.
  change ("ds-" +:+ ?x) with (String "d" (String "s" (String "-" x))) in E.
  now injection E.
Qed.

Lemma dht_id_inj i j : dht_id i = dht_id j -> i = j.
Proof.
  unfold dht_id. intros E. apply fmt_d_inj.
  change ("dht-" +:+ ?x)
    with (String "d" (String "h" (String "t" (String "-" x)))) in E.
  now injection E.
Qed.

Lemma ds_id_not_dht rom i : ds_id rom <> dht_id i.
Proof.
  unfold ds_id, dht_id.
  change ("ds-" +:+ ?x) with (String "d" (String "s" (String "-" x))).
  change ("dht-" +:+ ?x)
    with (String "d" (String "h" (String "t" (String "-" x)))).
  discriminate.
Qed.

(** X1.  The ids that [read_sensors] gives are distinct for distinct
    sensors: two device addresses with the same ["ds-"] id are the same
    address, two combo sensors with the same ["dht-"] id have the same
    index, and no bus id is a combo id. *)
Theorem sensor_ids_distinct :
  (forall rom rom',
      "ds-" +:+ hexlify rom = "ds-" +:+ hexlify rom' -> rom = rom')
  /\ (forall i j, "dht-" +:+ fmt_d i = "dht-" +:+ fmt_d j -> i = j)
  /\ (forall rom i, "ds-" +:+ hexlify rom <> "dht-" +:+ fmt_d i).
Proof.
  split; [exact ds_id_inj |]. split; [exact dht_id_inj | exact ds_id_not_dht].
Qed.

(** ** The table that [read_sensors] builds *)

Lemma map_fst_enumerate_from {A} (xs : list A) : forall i,
  map fst (enumerate_from i xs) = seq i (length xs).
Proof.
  induction xs as [| x xs IH]; intros i; cbn; [reflexivity |].
  now rewrite IH.
Qed.

Lemma ids_of_ds_assignments buses :
  map fst (ds_assignments buses) = map ds_id (flat_map bus_scan buses).
Proof.
  unfold ds_assignments.
  induction buses as [| bus buses IH]; [reflexivity |].
  cbn [flat_map]. rewrite !map_app. f_equal; [| exact IH].
  rewrite map_map. reflexivity.
Qed.

Lemma ids_of_dht_assignments dhts :
  map fst (dht_assignments dhts) = map dht_id (seq 0 (length dhts)).
Proof.
  unfold dht_assignments, enumerate.
  rewrite <- (map_fst_enumerate_from dhts 0), !map_map.
  apply map_ext. now intros [i sensor].
Qed.

Lemma NoDup_map_inj {A B} (f : A -> B) l :
  (forall x y, f x = f y -> x = y) -> NoDup l -> NoDup (map f l).
Proof.
  intros Hf. induction 1 as [| x l Hx Hl IH]; cbn; constructor; [| exact IH].
  rewrite in_map_iff. intros (y & E & Hy). apply Hf in E. now subst.
Qed.

(** Distinct device addresses make distinct ids. *)
Lemma assignments_ids_distinct h :
  NoDup (scanned h) -> NoDup (map fst (assignments h)).
Proof.
  intros H. unfold assignments.
  rewrite map_app, ids_of_ds_assignments, ids_of_dht_assignments.
  apply List.NoDup_app.
  - apply NoDup_map_inj; [exact ds_id_inj | exact H].
  - apply NoDup_map_inj; [exact dht_id_inj | apply seq_NoDup].
  - intros id Hds Hdht.
    apply in_map_iff in Hds as (rom & <- & _).
    apply in_map_iff in Hdht as (i & E & _).
    now apply (ds_id_not_dht rom i).
Qed.

Lemma fold_assign_set l : forall acc : table,
  fold_left (fun t a => Rebuild.assign a t) l acc
  = fold_left (fun acc '(k, v) => Dict.set k v acc) l acc.
Proof.
  induction l as [| [k v] l IH]; intros acc; [reflexivity |].
  cbn [fold_left]. apply IH.
Qed.

Lemma built_all h :
  Rebuild.built (length (assignments h)) h
  = fold_left (fun acc '(k, v) => Dict.set k v acc) (assignments h) Dict.empty.
Proof.
  unfold Rebuild.built. rewrite firstn_all. apply fold_assign_set.
Qed.

(** X2.  When the buses enumerate no device address twice, [read_sensors]
    leaves exactly one entry per sensor: the bus devices in the order of the
    buses and of their scans, each with its temperature under ["t"], then the
    combo sensors in the order of their list, each with ["t"] and ["h"].  It
    stamps [last_read], prints the table and touches nothing else. *)
Theorem read_sensors_exact :
  forall now w,
    NoDup (scanned (hw w)) ->
    read_sensors now w
    = ({| self :=
            set_last_read now (set_sensors (assignments (hw w)) (self w));
          hw := hw w;
          out := out w ++ [Print msg_read_sensors;
                           Print (msg_sensors (assignments (hw w)))] |},
       Return tt).
Proof.
  intros now w H. rewrite read_sensors_run. cbv zeta.
  rewrite built_all.
  rewrite (fold_set_fresh (assignments (hw w)) Dict.empty
             (assignments_ids_distinct _ H)).
  reflexivity.
Qed.

Lemma read_sensors_exact_witness :
  sensors (self (fst (read_sensors 1234 (example_world 22))))
  = example_table (45 # 2)
  /\ last_read (self (fst (read_sensors 1234 (example_world 22)))) = 1234.
Proof.
  assert (H : NoDup (scanned (hw (example_world 22)))).
  { repeat constructor. intros []. }
  rewrite (read_sensors_exact 1234 (example_world 22) H).
  split; reflexivity.
Defined.

(** What the insertions of a rebuild keep and add. *)
Lemma keys_set {V} k (v : V) d id :
  In id (Dict.keys (Dict.set k v d)) <-> id = k \/ In id (Dict.keys d).
Proof.
  induction d as [| [k' v'] d IH]; cbn.
  - intuition.
  - destruct (String.eqb_spec k k') as [-> | Hne]; cbn.
    + intuition.
    + rewrite IH. intuition.
Qed.

Lemma in_set {V} k (v : V) d e :
  In e (Dict.set k v d) -> e = (k, v) \/ In e d.
Proof.
  induction d as [| [k' v'] d IH]; cbn.
  - intuition.
  - destruct (String.eqb_spec k k') as [-> | Hne]; cbn.
    + intuition.
    + intros [H | H]; [auto | destruct (IH H); auto].
Qed.

Lemma ok_set {V} k (v : V) d : Dict.ok d -> Dict.ok (Dict.set k v d).
Proof.
  unfold Dict.ok. intros H.
  destruct (Dict.get k d) as [v0 |] eqn:E.
  - rewrite keys_set_present; [exact H | congruence].
  - rewrite (set_absent _ _ _ E). unfold Dict.keys. rewrite map_app.
    apply List.NoDup_app; [exact H | repeat constructor; intros [] |].
    intros id Hin [<- | []].
    apply get_in_keys in Hin. contradiction.
Qed.

Lemma fold_set_facts (l : list (string * reading)) : forall acc : table,
  Dict.ok acc ->
  let t := fold_left (fun acc '(k, v) => Dict.set k v acc) l acc in
  Dict.ok t
  /\ (forall id, In id (Dict.keys t)
                 <-> In id (Dict.keys acc) \/ In id (map fst l))
  /\ (forall e, In e t -> In e acc \/ In e l).
Proof.
  induction l as [| [k v] l IH]; intros acc Hok; cbn [fold_left].
  - cbv zeta. split; [exact Hok |]. split; [cbn; intuition | auto].
  - destruct (IH (Dict.set k v acc) (ok_set k v acc Hok)) as (H1 & H2 & H3).
    cbv zeta. split; [exact H1 |]. split.
    + intros id. rewrite H2, keys_set. cbn. intuition.
    + intros e He. destruct (H3 e He) as [H | H]; [| right; now right].
      destruct (in_set _ _ _ _ H) as [-> | H']; [right; now left | now left].
Qed.

Lemma assignments_shape h : Forall entry_shape (assignments h).
Proof.
  unfold assignments. apply Forall_app. split.
  - unfold ds_assignments. apply Forall_forall. intros e He.
    apply in_flat_map in He as (bus & _ & He).
    apply in_map_iff in He as (rom & <- & _).
    left. now exists rom, (bus_read_temp bus rom).
  - unfold dht_assignments. apply Forall_forall. intros e He.
    apply in_map_iff in He as ([i sensor] & <- & _).
    right. now exists i, (dht_temperature sensor), (dht_humidity sensor).
Qed.

Lemma get_some_in {V} k (v : V) d : Dict.get k d = Some v -> In (k, v) d.
Proof.
  induction d as [| [k' v'] d IH]; cbn; [discriminate |].
  destruct (String.eqb_spec k k') as [-> | Hne].
  - intros [= ->]. now left.
  - intros H. right. now apply IH.
Qed.

Lemma get_iff_keys {V} k (d : dict V) :
  Dict.get k d <> None <-> In k (Dict.keys d).
Proof.
  split; [| apply get_in_keys].
  intros H. destruct (in_dec string_dec k (Dict.keys d)) as [Hin | Hout];
    [exact Hin |].
  now apply get_not_in_keys in Hout.
Qed.

(** The table after [read_sensors], whatever it was before. *)
Lemma read_sensors_table now w :
  let t := sensors (self (fst (read_sensors now w))) in
  Dict.ok t
  /\ Forall entry_shape t
  /\ (forall id, Dict.get id t <> None
                 <-> In id (map fst (assignments (hw w))))
  /\ (forall id r, Dict.get id t = Some r -> In (id, r) (assignments (hw w))).
Proof.
  cbv zeta. rewrite read_sensors_run. cbv zeta. cbn [fst self sensors].
  change (sensors (set_last_read now
                     (set_sensors
                        (Rebuild.built (length (assignments (hw w))) (hw w))
                        (self w))))
    with (Rebuild.built (length (assignments (hw w))) (hw w)).
  rewrite built_all.
  destruct (fold_set_facts (assignments (hw w)) Dict.empty)
    as (H1 & H2 & H3); [constructor |].
  cbv zeta in H1, H2, H3.
  split; [exact H1 |]. split; [| split].
  - apply Forall_forall. intros e He.
    destruct (H3 e He) as [[] | H].
    exact (proj1 (Forall_forall _ _) (assignments_shape (hw w)) e H).
  - intros id. rewrite get_iff_keys, H2. cbn. intuition.
  - intros id r Hr. apply get_some_in in Hr.
    destruct (H3 _ Hr) as [[] | H]. exact H.
Qed.

(** X3.  [read_sensors] replaces the table: the table it leaves has no id
    twice, has an entry for an id exactly when a sensor of the hardware has
    that id -- whatever the table held before, so ids of sensors that are
    gone do not stay --, every entry is a reading that some sensor gave this
    time, in one of the two shapes (["t"] alone under a ["ds-"] id, ["t"]
    and ["h"] under a ["dht-"] id), and two rebuilds on the same hardware
    give the same table. *)
Theorem read_sensors_replaces :
  forall now w,
    let t := sensors (self (fst (read_sensors now w))) in
    Dict.ok t
    /\ Forall entry_shape t
    /\ (forall id, Dict.get id t <> None
                   <-> In id (map fst (assignments (hw w))))
    /\ (forall id r,
           Dict.get id t = Some r -> In (id, r) (assignments (hw w)))
    /\ (forall now' w',
           hw w' = hw w -> sensors (self (fst (read_sensors now' w'))) = t).
Proof.
  intros now w. cbv zeta.
  destruct (read_sensors_table now w) as (H1 & H2 & H3 & H4).
  repeat (split; [assumption |]).
  intros now' w' E. rewrite !read_sensors_run. cbv zeta. cbn [fst self].
  now rewrite E.
Qed.

(** X4.  Right after a rebuild, asking a bus sensor for its humidity skips
    the channel: whatever the thresholds and the relay, [handle_sensor] with
    a ["ds-"] id and the key ["h"] logs that the reading or the value is
    missing, returns, and leaves the controller and the hardware alone. *)
Theorem bus_sensor_has_no_humidity :
  forall now w rom low high relay_name,
    let w1 := fst (read_sensors now w) in
    exists m,
      (m = msg_no_reading (Some ("ds-" +:+ hexlify rom))
       \/ m = msg_no_value (Some ("ds-" +:+ hexlify rom)) "h")
      /\ handle_sensor (Some ("ds-" +:+ hexlify rom)) "h" low high relay_name
           w1
         = (logged [Print (msg_handling_sensor
                             (Some ("ds-" +:+ hexlify rom)));
                    Print m] w1, Return tt).
Proof.
  intros now w rom low high relay_name w1.
  fold (ds_id rom).
  destruct (read_sensors_table now w) as (_ & Hshape & _ & _).
  fold w1 in Hshape.
  assert (Hmiss : table_get (Some (ds_id rom)) (sensors (self w1)) = None
                  \/ exists sensor,
                       table_get (Some (ds_id rom)) (sensors (self w1))
                       = Some sensor
                       /\ Dict.get "h" sensor = None).
  { destruct (table_get (Some (ds_id rom)) (sensors (self w1)))
      as [sensor |] eqn:E; [right | now left].
    exists sensor. split; [reflexivity |].
    cbn [table_get] in E. apply get_some_in in E.
    destruct (proj1 (Forall_forall _ _) Hshape _ E)
      as [(rom' & t & Hds) | (i & t & hu & Hdht)].
    - injection Hds as _ ->. reflexivity.
    - exfalso. apply (ds_id_not_dht rom i). congruence. }
  unfold handle_sensor. run.
  destruct Hmiss as [-> | (sensor & -> & ->)].
  - eexists. split; [left; reflexivity |]. cbn. now rewrite <- app_assoc.
  - eexists. split; [right; reflexivity |]. cbn. now rewrite <- app_assoc.
Qed.

(** ** Shutdown of the relays *)

Lemma set_in_place {V} k (v v' : V) pre d :
  Dict.get k pre = None ->
  Dict.set k v' (pre ++ (k, v) :: d) = pre ++ (k, v') :: d.
Proof.
  induction pre as [| [k0 v0] pre IH]; cbn; intros H.
  - now rewrite String.eqb_refl.
  - destruct (String.eqb_spec k k0); [discriminate |]. now rewrite IH.
Qed.

Lemma for_each_relay_on_all d : forall pre w,
  NoDup (Dict.keys (pre ++ d)) ->
  relays (hw w) = pre ++ d ->
  for_each (Dict.keys d) relay_on w
  = ({| self := self w;
        hw := {| relays := pre ++ map (fun kv => (fst kv, 1)) d;
                 sensors_ds := sensors_ds (hw w);
                 sensors_dht := sensors_dht (hw w) |};
        out := out w ++ map RelayOn (Dict.keys d) |}, Return tt).
Proof.
  induction d as [| [k v] d IH]; intros pre w Hok Hw; cbn [Dict.keys map for_each].
  - unfold ret. rewrite !app_nil_r. rewrite app_nil_r in Hw.
    destruct w as [c [r ds dht] o]. cbn in *. now subst.
  - rewrite (bind_return _ _ _ _ _ (relay_on_run _ _)).
    assert (Hk : Dict.get k pre = None).
    { apply get_not_in_keys. unfold Dict.keys in Hok. rewrite map_app in Hok.
      cbn in Hok. apply NoDup_remove_2 in Hok. intros Hin. apply Hok.
      apply in_or_app. now left. }
    assert (Hok' : NoDup (Dict.keys ((pre ++ [(k, 1)]) ++ d))).
    { rewrite <- app_assoc. cbn [app].
      unfold Dict.keys in *. rewrite map_app in *. exact Hok. }
    assert (Hw' : relays (hw (switched k 1 (logged [RelayOn k] w)))
                  = (pre ++ [(k, 1)]) ++ d).
    { cbn [hw switched logged set_relay relays]. rewrite Hw.
      rewrite (set_in_place _ _ _ _ _ Hk). now rewrite <- app_assoc. }
    pose proof (IH _ _ Hok' Hw') as H.
    unfold Dict.keys in H |- *. cbn [fst]. rewrite H.
    cbn [self hw out switched logged set_relay sensors_ds sensors_dht fst].
    rewrite <- !app_assoc. reflexivity.
Qed.

(** X5.  [relays_off] invokes [on] once on every relay, in the order of the
    hardware and whatever the relays were, and no other operation; after it
    every relay has the raw value 1 under its name, and the controller is
    untouched. *)
Theorem relays_off_all :
  forall w,
    Dict.ok (relays (hw w)) ->
    relays_off w
    = ({| self := self w;
          hw := all_on (hw w);
          out := out w
                 ++ Print msg_deactivating_all
                 :: map RelayOn (Dict.keys (relays (hw w))) |},
       Return tt).
Proof.
  intros w Hok. unfold relays_off, print.
  rewrite (bind_return _ _ _ _ _ (emit_logged _ _)).
  unfold bind at 1. unfold gets at 1. cbv iota beta. cbn [hw logged].
  rewrite (for_each_relay_on_all (relays (hw w)) []
             (logged [Print msg_deactivating_all] w) Hok eq_refl).
  cbn [self hw out logged app]. unfold all_on.
  now rewrite <- app_assoc.
Qed.

Lemma relays_off_all_witness :
  relays (hw (fst (relays_off (example_world 22))))
  = [("heat1", 1); ("heat2", 1); ("humidifier", 1)]
  /\ relay_ops (out (fst (relays_off (example_world 22))))
     = [RelayOn "heat1"; RelayOn "heat2"; RelayOn "humidifier"].
Proof.
  assert (Hok : Dict.ok (relays (hw (example_world 22)))).
  { unfold Dict.ok. cbn. repeat constructor; cbn; intuition discriminate. }
  rewrite (relays_off_all (example_world 22) Hok).
  split; reflexivity.
Defined.

(** ** Maintenance without readings *)

Lemma handle_sensor_no_reading w sensor_name k low high relay_name :
  table_get sensor_name (sensors (self w)) = None ->
  handle_sensor sensor_name k low high relay_name w
  = (logged [Print (msg_handling_sensor sensor_name);
             Print (msg_no_reading sensor_name)] w, Return tt).
Proof.
  intros H. unfold handle_sensor. run. rewrite H. cbn.
  now rewrite <- app_assoc.
Qed.

(** X6.  When none of the three configured sensor ids has a reading in the
    table, [do_maintenance] only logs, for the three channels in the order
    heat1, heat2, humidifier, that it handles the sensor and has no reading:
    it invokes no relay, raises nothing even if thresholds are [None], and
    changes neither the controller nor the hardware.  This is so for ids that
    are [None] and for any configuration while the table is empty. *)
Theorem do_maintenance_without_readings :
  forall w,
    let c := self w in
    table_get (temp1_id c) (sensors c) = None ->
    table_get (temp2_id c) (sensors c) = None ->
    table_get (humid_id c) (sensors c) = None ->
    do_maintenance w
    = (logged [Print (msg_handling_sensor (temp1_id c));
               Print (msg_no_reading (temp1_id c));
               Print (msg_handling_sensor (temp2_id c));
               Print (msg_no_reading (temp2_id c));
               Print (msg_handling_sensor (humid_id c));
               Print (msg_no_reading (humid_id c))] w,
       Return tt).
Proof.
  intros w c H1 H2 H3. unfold do_maintenance.
  unfold bind at 1. unfold gets at 1. cbv iota beta. fold c.
  rewrite (bind_return _ _ _ _ _
             (handle_sensor_no_reading w _ "t" _ _ "heat1" H1)).
  erewrite bind_return by (apply handle_sensor_no_reading; exact H2).
  rewrite handle_sensor_no_reading by exact H3.
  now rewrite !logged_logged.
Qed.

Lemma do_maintenance_without_readings_witness :
  let w := {| self := Control_init None None None None false
                        (Some 20%Q) (Some 25%Q) (Some "ds-ab12")
                        None None (Some "dht-0") None None None;
              hw := example_hw; out := [] |} in
  snd (do_maintenance w) = Return tt
  /\ relay_ops (out (fst (do_maintenance w))) = [].
Proof.
  cbv zeta.
  rewrite (do_maintenance_without_readings
             {| self := Control_init None None None None false
                          (Some 20%Q) (Some 25%Q) (Some "ds-ab12")
                          None None (Some "dht-0") None None None;
                hw := example_hw; out := [] |} eq_refl eq_refl eq_refl).
  split; reflexivity.
Defined.

(** ** What the hysteresis may touch *)

Lemma acts_logged names k es w :
  Forall (on_relays names) es ->
  (length (relay_ops es) <= k)%nat ->
  acts names k w (logged es w).
Proof.
  intros H Hk. unfold acts. cbn [self hw out logged].
  do 4 (split; [reflexivity |]). split; [reflexivity |]. now exists es.
Qed.

Lemma acts_compose names1 names2 k1 k2 w1 w2 w3 :
  acts names1 k1 w1 w2 ->
  acts names2 k2 w2 w3 ->
  acts (names1 ++ names2) (k1 + k2) w1 w3.
Proof.
  intros (A1 & A2 & A3 & A4 & A5 & es1 & A6 & A7 & A8)
         (B1 & B2 & B3 & B4 & B5 & es2 & B6 & B7 & B8).
  unfold acts.
  split; [congruence |]. split; [congruence |]. split; [congruence |].
  split; [congruence |]. split.
  - intros n Hn. rewrite B5, A5; [reflexivity | |];
      intros Hin; apply Hn; apply in_or_app; auto.
  - exists (es1 ++ es2). split; [rewrite B6, A6; now rewrite app_assoc |].
    split.
    + apply Forall_app. split.
      * eapply Forall_impl; [| exact A7].
        intros [] He; cbn in *; try exact He; apply in_or_app; now left.
      * eapply Forall_impl; [| exact B7].
        intros [] He; cbn in *; try exact He; apply in_or_app; now right.
    + unfold relay_ops in *. rewrite filter_app, length_app. lia.
Qed.

Lemma acts_switched name raw es w :
  Dict.get name (relays (hw w)) <> None ->
  Forall (on_relays [name]) es ->
  (length (relay_ops es) <= 1)%nat ->
  acts [name] 1 w (switched name raw (logged es w)).
Proof.
  intros Hr H Hk. unfold acts. cbn [self hw out logged switched set_relay
                                     relays sensors_ds sensors_dht].
  do 3 (split; [reflexivity |]).
  split; [now apply keys_set_present |].
  split.
  - intros n Hn. apply get_set_other. intros ->. apply Hn. now left.
  - now exists es.
Qed.

Lemma relay_ops_prints ms : relay_ops (map Print ms) = [].
Proof. induction ms as [| m ms IH]; [reflexivity | exact IH]. Qed.

Lemma handle_sensor_acts sensor_name k low high relay_name w :
  acts [relay_name] 1 w
       (fst (handle_sensor sensor_name k low high relay_name w)).
Proof.
  assert (Hp : forall ms : list message,
             Forall (on_relays [relay_name]) (map Print ms)
             /\ (length (relay_ops (map Print ms)) <= 1)%nat).
  { intros ms. split.
    - apply Forall_forall. intros e He.
      apply in_map_iff in He as (m & <- & _). exact I.
    - rewrite relay_ops_prints. cbn. lia. }
  destruct (table_get sensor_name (sensors (self w))) as [sensor |] eqn:Hs.
  2: { destruct (handle_sensor_missing w sensor_name k low high relay_name
                   (or_introl Hs)) as [m [_ ->]].
       apply (acts_logged _ _ (map Print [_; _])); apply Hp. }
  destruct (Dict.get k sensor) as [value |] eqn:Hk.
  2: { destruct (handle_sensor_missing w sensor_name k low high relay_name)
         as [m [_ ->]]; [right; left; eauto |].
       apply (acts_logged _ _ (map Print [_; _])); apply Hp. }
  destruct (Dict.get relay_name (relays (hw w))) as [raw |] eqn:Hr.
  2: { destruct (handle_sensor_missing w sensor_name k low high relay_name)
         as [m [_ ->]]; [now right; right |].
       apply (acts_logged _ _ (map Print [_; _])); apply Hp. }
  rewrite (handle_sensor_live _ _ _ _ _ _ _ _ _ Hs Hk Hr). cbv zeta.
  assert (Hsw : forall raw' m e,
             on_relays [relay_name] e ->
             acts [relay_name] 1 w
               (switched relay_name raw'
                  (logged [Print m; e]
                     (logged [Print (msg_handling_sensor sensor_name)] w)))).
  { intros raw' m e He. rewrite logged_logged.
    apply acts_switched; [congruence | |].
    - repeat constructor. exact He.
    - cbn. destruct (is_relay_op e); cbn; lia. }
  destruct low as [lo |];
    [| apply (acts_logged _ _ (map Print [_])); apply Hp].
  destruct (Qle_bool value lo); [apply Hsw; now left |].
  destruct high as [hi |];
    [| apply (acts_logged _ _ (map Print [_])); apply Hp].
  destruct (Qle_bool hi value); [apply Hsw; now left |].
  apply (acts_logged _ _ (map Print [_])); apply Hp.
Qed.

(** X7.  Whatever its arguments and the state, one call of [handle_sensor]
    invokes at most one relay operation, and only on the relay it was given;
    it emits nothing else than console messages, keeps the names of the
    relays and the raw value of every other relay, and never changes the
    controller or the sensors. *)
Theorem handle_sensor_touches_its_relay :
  forall sensor_name k low high relay_name w,
    acts [relay_name] 1 w
         (fst (handle_sensor sensor_name k low high relay_name w)).
Proof. intros. apply handle_sensor_acts. Qed.

Lemma bind_acts names1 names2 k1 k2 (m1 m2 : M unit) w :
  (forall w, acts names1 k1 w (fst (m1 w))) ->
  (forall w, acts names2 k2 w (fst (m2 w))) ->
  acts (names1 ++ names2) (k1 + k2) w (fst (bind m1 (fun _ => m2) w)).
Proof.
  intros H1 H2. unfold bind. specialize (H1 w).
  destruct (m1 w) as [w1 [[] | e]]; cbn [fst] in *.
  - eapply acts_compose; [exact H1 | apply H2].
  - eapply acts_compose; [exact H1 |].
    rewrite <- (logged_nil w1) at 2.
    apply acts_logged; [constructor | cbn; lia].
Qed.

Lemma do_maintenance_acts w :
  acts ["heat1"; "heat2"; "humidifier"] 3 w (fst (do_maintenance w)).
Proof.
  unfold do_maintenance.
  unfold bind at 1. unfold gets at 1. cbv iota beta.
  apply (bind_acts ["heat1"] ["heat2"; "humidifier"] 1 2);
    [intros w'; apply handle_sensor_acts |].
  intros w'.
  apply (bind_acts ["heat2"] ["humidifier"] 1 1);
    intros w''; apply handle_sensor_acts.
Qed.

(** X8.  [do_maintenance] invokes at most three relay operations, on no
    other relay than heat1, heat2 and humidifier; every other relay keeps
    its raw value, the names of the relays stay, and the controller and the
    sensors are unchanged -- also when a comparison raises. *)
Theorem do_maintenance_touches_three_relays :
  forall w,
    acts ["heat1"; "heat2"; "humidifier"] 3 w (fst (do_maintenance w)).
Proof. exact do_maintenance_acts. Qed.

(** ** The display across rebuilds and passes *)

Lemma remaining_mid_pass f t t' g :
  g <> at_top -> remaining f t' g = remaining f t g.
Proof. destruct g; [contradiction | reflexivity | reflexivity]. Qed.

Lemma advance_add n : forall k g w,
  advance (n + k) g w = bind (advance n g) (advance k) w.
Proof.
  induction n as [| n IH]; intros k g w.
  - reflexivity.
  - cbn [advance Nat.add]. unfold bind.
    destruct (next g w) as [w1 [g1 | e]]; [| reflexivity].
    rewrite IH. reflexivity.
Qed.

Lemma advance_full_pass w :
  advance (S (length (pass_shows (display_f (self w)) (sensors (self w)))))
          at_top w
  = (logged
       (map DisplayShow (pass_shows (display_f (self w)) (sensors (self w)))
        ++ [DisplayShow (relay_summary (hw w))]) w,
     Return at_top).
Proof. now apply advance_to_top. Qed.

(** X9.  A rebuild of the table in the middle of a pass does not change the
    pass: a generator suspended after a label or a value goes on showing what
    remained of the table it started with, then the relay summary, and is
    back at the top; the pass after that shows the new table. *)
Theorem pass_ignores_rebuild :
  forall g w now,
    g <> at_top ->
    let f := display_f (self w) in
    let l := remaining f (sensors (self w)) g in
    let w' := fst (read_sensors now w) in
    let l' := pass_shows f (sensors (self w')) in
    advance (S (length l)) g w'
    = (logged (map DisplayShow l ++ [DisplayShow (relay_summary (hw w))]) w',
       Return at_top)
    /\ advance (S (length l) + S (length l')) g w'
       = (logged
            ((map DisplayShow l ++ [DisplayShow (relay_summary (hw w))])
             ++ map DisplayShow l' ++ [DisplayShow (relay_summary (hw w))])
            w',
          Return at_top).
Proof.
  intros g w now Hg f l w' l'.
  assert (Hw' : display_f (self w') = f /\ hw w' = hw w).
  { unfold w'. rewrite read_sensors_run. cbv zeta. now split. }
  destruct Hw' as [Hf Hh].
  assert (H1 : advance (S (length l)) g w'
               = (logged (map DisplayShow l
                          ++ [DisplayShow (relay_summary (hw w))]) w',
                  Return at_top)).
  { rewrite <- Hh. apply advance_to_top.
    rewrite Hf. now apply remaining_mid_pass. }
  split; [exact H1 |].
  rewrite advance_add, (bind_return _ _ _ _ _ H1).
  pose proof (advance_full_pass
                (logged (map DisplayShow l
                         ++ [DisplayShow (relay_summary (hw w))]) w')) as H2.
  cbn [self hw logged] in H2. rewrite Hf, Hh in H2. fold l' in H2.
  rewrite H2. now rewrite logged_logged.
Qed.

Lemma pass_ignores_rebuild_witness :
  let w := example_world 22 in
  let g := after_label 0 "22.0C" [] [[("t", 18%Q); ("h", 55%Q)]] in
  out (fst (advance 6 g (fst (read_sensors 1234 w))))
  = out (fst (read_sensors 1234 w))
    ++ [DisplayShow "22.0C    "; DisplayShow "S1 t"; DisplayShow "18.0C    ";
        DisplayShow "S1 h"; DisplayShow "55.0    "; DisplayShow "r010"].
Proof.
  cbv zeta.
  destruct (pass_ignores_rebuild
              (after_label 0 "22.0C" [] [[("t", 18%Q); ("h", 55%Q)]])
              (example_world 22) 1234) as [H _]; [discriminate |].
  exact (f_equal (fun r => out (fst r)) H).
Defined.

(** X10.  While the table is empty -- before the first sensor cycle, or with
    no sensor found -- every step of the display shows the relay summary of
    the moment and nothing else. *)
Theorem display_of_empty_table :
  forall n w,
    sensors (self w) = Dict.empty ->
    advance n at_top w
    = (logged (repeat (DisplayShow (relay_summary (hw w))) n) w,
       Return at_top).
Proof.
  induction n as [| n IH]; intros w Ht.
  - cbn. now rewrite logged_nil.
  - generalize (next_step at_top w). cbn [remaining]. rewrite Ht.
    cbn [pass_shows sensors_shows Dict.values map enumerate_from flat_map].
    intros H. cbn [advance]. rewrite (bind_return _ _ _ _ _ H).
    rewrite (IH (logged _ w) Ht). cbn [hw logged repeat].
    now rewrite logged_logged.
Qed.

Lemma display_of_empty_table_witness :
  out (fst (advance 2 at_top
              {| self := Control_init None None None None false
                           None None None None None None None None None;
                 hw := example_hw; out := [] |}))
  = [DisplayShow "r010"; DisplayShow "r010"].
Proof.
  now rewrite (display_of_empty_table 2
                 {| self := Control_init None None None None false
                              None None None None None None None None None;
                    hw := example_hw; out := [] |} eq_refl).
Defined.

(** The shows of one full pass on a world. *)
Lemma advance_passes m : forall w,
  advance (m * S (2 * displayed_keys (sensors (self w)))) at_top w
  = (logged
       (concat
          (repeat
             (map DisplayShow
                  (pass_shows (display_f (self w)) (sensors (self w)))
              ++ [DisplayShow (relay_summary (hw w))]) m)) w,
     Return at_top).
Proof.
  induction m as [| m IH]; intros w.
  - cbn. now rewrite logged_nil.
  - cbn [Nat.mul]. rewrite advance_add.
    pose proof (advance_to_top
                  (pass_shows (display_f (self w)) (sensors (self w)))
                  at_top w eq_refl) as H.
    unfold pass_shows in H at 1. rewrite length_sensors_shows in H.
    fold (displayed_keys (sensors (self w))) in H.
    rewrite (bind_return _ _ _ _ _ H).
    rewrite (IH (logged _ w)). cbn [self hw logged repeat concat].
    now rewrite logged_logged.
Qed.

(** X11.  The display is periodic: as long as the table and the relays stay
    as they are, [m] times the steps of one pass show [m] times the same
    pass -- the labels and values of the table, then the relay summary --
    and leave the generator at the top of its loop. *)
Theorem display_is_periodic :
  forall m w,
    advance (m * S (2 * displayed_keys (sensors (self w)))) at_top w
    = (logged
         (concat
            (repeat
               (map DisplayShow
                    (pass_shows (display_f (self w)) (sensors (self w)))
                ++ [DisplayShow (relay_summary (hw w))]) m)) w,
       Return at_top).
Proof. intros. apply advance_passes. Qed.

(** ** The timer callback *)

Lemma for_each_emit {A} (f : A -> event) xs : forall w,
  for_each xs (fun x => emit (f x)) w = (logged (map f xs) w, Return tt).
Proof.
  induction xs as [| x xs IH]; intros w; cbn [for_each map].
  - unfold ret. now rewrite logged_nil.
  - rewrite (bind_return _ _ _ _ _ (emit_logged _ _)), IH.
    now rewrite logged_logged.
Qed.

Lemma map_enumerate {A B} (f : nat -> B) (xs : list A) :
  map (fun ix => f (fst ix)) (enumerate xs) = map f (seq 0 (length xs)).
Proof.
  unfold enumerate. rewrite <- (map_fst_enumerate_from xs 0), map_map.
  reflexivity.
Qed.

Lemma prep_sensors_run w :
  prep_sensors w
  = (logged (Print msg_prep_sensors
             :: map ConvertTemp (seq 0 (length (sensors_ds (hw w))))
             ++ map Measure (seq 0 (length (sensors_dht (hw w))))) w,
     Return tt).
Proof.
  unfold prep_sensors, print.
  rewrite (bind_return _ _ _ _ _ (emit_logged _ _)).
  unfold bind at 1. unfold gets at 1. cbv iota beta.
  rewrite (bind_return _ _ _ _ _ (for_each_emit _ _ _)).
  unfold bind at 1. unfold gets at 1. cbv iota beta.
  rewrite for_each_emit, !logged_logged. cbn [hw logged].
  now rewrite !map_enumerate.
Qed.

(** X12.  [update_sensors] starts a conversion on every temperature bus and
    then a measurement on every combo sensor, each once and in the order of
    the hardware lists, and then arms a one-shot timer with [prep_interval]
    for [read_sensors]; it reads nothing and changes neither the controller
    nor the hardware state. *)
Theorem update_sensors_triggers_all :
  forall w,
    update_sensors w
    = (logged
         ([Print msg_updating_sensors; Print msg_prep_sensors]
          ++ map ConvertTemp (seq 0 (length (sensors_ds (hw w))))
          ++ map Measure (seq 0 (length (sensors_dht (hw w))))
          ++ [TimerInit (prep_interval (self w)) ONE_SHOT cb_read_sensors])
         w,
       Return tt).
Proof.
  intros w. unfold update_sensors, print.
  rewrite (bind_return _ _ _ _ _ (emit_logged _ _)).
  rewrite (bind_return _ _ _ _ _ (prep_sensors_run _)).
  unfold bind at 1. unfold gets at 1. cbv iota beta.
  rewrite emit_logged, !logged_logged. cbn [self hw logged].
  f_equal. f_equal. cbn [app]. now rewrite <- !app_assoc.
Qed.

(** ** An iteration of the loop when nothing is due *)

Lemma quiet_show s : quiet (DisplayShow s).
Proof. split; [reflexivity | discriminate]. Qed.

Lemma quiet_readlines ls : Forall quiet (map ClientReadline ls).
Proof.
  apply Forall_forall. intros e He.
  apply in_map_iff in He as (l & <- & _). split; [reflexivity | discriminate].
Qed.

Lemma handle_client_quiet lines addr w :
  exists es,
    handle_client lines addr w = (logged es w, Return tt) /\ Forall quiet es.
Proof.
  unfold handle_client, print.
  rewrite (bind_return _ _ _ _ _ (emit_logged _ _)).
  rewrite (bind_return _ _ _ _ _ (drain_run _ _)).
  rewrite logged_logged.
  unfold bind at 1. unfold relay_state at 1, gets at 1. cbv iota beta.
  unfold bind at 1. unfold gets at 1. cbv iota beta.
  rewrite (bind_return _ _ _ _ _ (emit_logged _ _)).
  rewrite emit_logged, !logged_logged.
  eexists. split; [reflexivity |].
  repeat first
    [ apply Forall_app; split
    | apply quiet_readlines
    | apply Forall_cons; [split; [reflexivity | discriminate] |]
    | apply Forall_nil ].
Qed.

Lemma clients_quiet evs : forall w,
  exists es,
    for_each evs
      (fun ev =>
         if ev_on_server ev then
           handle_client (conn_lines (ev_client ev))
                         (conn_addr (ev_client ev))
         else ret tt) w
    = (logged es w, Return tt)
    /\ Forall quiet es.
Proof.
  induction evs as [| ev evs IH]; intros w; cbn [for_each].
  - exists []. unfold ret. now rewrite logged_nil.
  - destruct (ev_on_server ev).
    + destruct (handle_client_quiet (conn_lines (ev_client ev))
                  (conn_addr (ev_client ev)) w) as (es1 & H1 & Q1).
      rewrite (bind_return _ _ _ _ _ H1).
      destruct (IH (logged es1 w)) as (es2 & H2 & Q2).
      exists (es1 ++ es2). rewrite H2, logged_logged.
      split; [reflexivity | now apply Forall_app].
    + unfold bind at 1. unfold ret at 1. apply IH.
Qed.

Lemma display_phase_quiet (b : bool) it st w :
  exists es st1,
    (if b then
       g <- next (display st) ;;
       ret {| last_check := last_check st;
              last_display := it_after_display it;
              display := g |}
     else ret st) w = (logged es w, Return st1)
    /\ Forall quiet es
    /\ last_check st1 = last_check st
    /\ (b = false -> es = [] /\ st1 = st).
Proof.
  destruct b.
  - destruct (next_returns (display st) w) as [s [g H]].
    rewrite (bind_return _ _ _ _ _ H).
    eexists [_], _. split; [reflexivity |].
    split; [repeat constructor; discriminate |].
    split; [reflexivity | discriminate].
  - exists [], st. unfold ret. rewrite logged_nil. auto.
Qed.

(** X13.  While less than [check_delta] has elapsed since the last check, an
    iteration of the loop runs no maintenance: it invokes no relay, cannot
    raise, leaves the controller and the hardware as they are and keeps the
    time of the last check; all it may do is advance the display and answer
    clients.  If the display is not due either and no connection is pending,
    the iteration does nothing at all. *)
Theorem loop_body_not_due :
  forall it st w,
    ticks_diff (it_now it) (last_check st)
      < check_delta (check_interval (self w)) ->
    (exists es st',
        loop_body it st w = (logged es w, Return st')
        /\ Forall quiet es
        /\ last_check st' = last_check st)
    /\ (ticks_diff (it_now it) (last_display st)
          < display_delta (display_interval (self w)) ->
        it_events it = [] ->
        loop_body it st w = (w, Return st)).
Proof.
  intros it st w Hc.
  assert (Hgeb : forall st1, last_check st1 = last_check st ->
             (ticks_diff (it_now it) (last_check st1)
                >=? check_delta (check_interval (self w))) = false).
  { intros st1 ->. rewrite Z.geb_leb. apply Z.leb_gt. exact Hc. }
  unfold loop_body.
  unfold bind at 1. unfold gets at 1. cbv iota beta zeta.
  split.
  - destruct (display_phase_quiet
                (ticks_diff (it_now it) (last_display st)
                   >=? display_delta (display_interval (self w)))
                it st w) as (es1 & st1 & H1 & Q1 & L1 & _).
    rewrite (bind_return _ _ _ _ _ H1), (Hgeb st1 L1).
    unfold bind at 1. unfold ret at 1. cbv iota beta.
    destruct (clients_quiet (it_events it) (logged es1 w))
      as (es2 & H2 & Q2).
    rewrite (bind_return _ _ _ _ _ H2). unfold ret. rewrite logged_logged.
    exists (es1 ++ es2), st1.
    split; [reflexivity |]. split; [now apply Forall_app | exact L1].
  - intros Hd Hev.
    unfold bind at 1. unfold gets at 1. cbv iota beta.
    replace (ticks_diff (it_now it) (last_display st)
               >=? display_delta (display_interval (self w))) with false
      by (symmetry; rewrite Z.geb_leb; apply Z.leb_gt; exact Hd).
    rewrite (bind_return (ret st) _ w w st eq_refl).
    rewrite (Hgeb st eq_refl).
    rewrite (bind_return (ret st) _ w w st eq_refl).
    rewrite Hev. reflexivity.
Qed.

Lemma loop_body_not_due_witness :
  loop_body {| it_events := []; it_now := 500; it_after_display := 501;
               it_before_check := 502 |}
            {| last_check := 0; last_display := 0; display := at_top |}
            (example_world 22)
  = (example_world 22,
     Return {| last_check := 0; last_display := 0; display := at_top |}).
Proof.
  apply loop_body_not_due; [vm_compute | vm_compute |]; reflexivity.
Defined.

(** ** What a whole run keeps *)

Section RespectsFacts.

Variable R : World -> World -> Prop.
Hypothesis R_refl : forall w, R w w.
Hypothesis R_trans : forall w1 w2 w3, R w1 w2 -> R w2 w3 -> R w1 w3.

Lemma Respects_ret {A} (a : A) : Respects R (ret a).
Proof. intros w. apply R_refl. Qed.

Lemma Respects_raise {A} e : Respects R (@raise A e).
Proof. intros w. apply R_refl. Qed.

Lemma Respects_gets {A} (f : World -> A) : Respects R (gets f).
Proof. intros w. apply R_refl. Qed.

Lemma Respects_bind {A B} (m : M A) (k : A -> M B) :
  Respects R m -> (forall a, Respects R (k a)) -> Respects R (bind m k).
Proof.
  intros Hm Hk w. unfold bind. specialize (Hm w).
  destruct (m w) as [w' [a | e]]; cbn [fst] in *.
  - eapply R_trans; [exact Hm | apply Hk].
  - exact Hm.
Qed.

Lemma Respects_for_each {A} (xs : list A) (body : A -> M unit) :
  (forall x, Respects R (body x)) -> Respects R (for_each xs body).
Proof.
  intros H. induction xs as [| x xs IH]; cbn [for_each].
  - apply Respects_ret.
  - apply Respects_bind; [apply H | intros _; exact IH].
Qed.

Lemma Respects_if {A} (b : bool) (m1 m2 : M A) :
  Respects R m1 -> Respects R m2 -> Respects R (if b then m1 else m2).
Proof. now destruct b. Qed.

Lemma Respects_try_finally body final :
  Respects R body -> Respects R final -> Respects R (try_finally body final).
Proof.
  intros Hb Hf w. unfold try_finally. specialize (Hb w).
  destruct (body w) as [w1 r]. specialize (Hf w1).
  destruct (final w1) as [w2 [[] | e]]; cbn [fst] in *;
    eapply R_trans; eassumption.
Qed.

End RespectsFacts.

Lemma evolves_refl w : evolves w w.
Proof. split; [reflexivity |]. exists []. now rewrite app_nil_r. Qed.

Lemma evolves_trans w1 w2 w3 : evolves w1 w2 -> evolves w2 w3 -> evolves w1 w3.
Proof.
  intros [C1 [es1 O1]] [C2 [es2 O2]]. split; [congruence |].
  exists (es1 ++ es2). rewrite O2, O1. now rewrite app_assoc.
Qed.

Lemma evolves_logged es w : evolves w (logged es w).
Proof. split; [reflexivity |]. now exists es. Qed.

Lemma evolves_emit e : Respects evolves (emit e).
Proof. intros w. apply (evolves_logged [e]). Qed.

Lemma evolves_update_hw f : Respects evolves (update_hw f).
Proof. intros w. split; [reflexivity |]. exists []. cbn. now rewrite app_nil_r. Qed.

Lemma evolves_acts names k w w' : acts names k w w' -> evolves w w'.
Proof.
  intros (Hs & _ & _ & _ & _ & es & Ho & _). split; [now rewrite Hs |].
  now exists es.
Qed.

Lemma evolves_do_maintenance : Respects evolves do_maintenance.
Proof.
  intros w. eapply evolves_acts. apply do_maintenance_acts.
Qed.

Lemma evolves_next g : Respects evolves (next g).
Proof.
  intros w. destruct (next_returns g w) as [s [g' ->]]. apply evolves_logged.
Qed.

Lemma evolves_handle_client lines addr :
  Respects evolves (handle_client lines addr).
Proof.
  intros w. destruct (handle_client_quiet lines addr w) as (es & -> & _).
  apply evolves_logged.
Qed.

Lemma evolves_read_sensors now : Respects evolves (read_sensors now).
Proof.
  intros w. rewrite read_sensors_run. cbv zeta. split; [reflexivity |].
  now eexists.
Qed.

Lemma update_sensors_logged w :
  exists es, update_sensors w = (logged es w, Return tt).
Proof.
  unfold update_sensors, print.
  rewrite (bind_return _ _ _ _ _ (emit_logged _ _)).
  rewrite (bind_return _ _ _ _ _ (prep_sensors_run _)).
  unfold bind at 1. unfold gets at 1. cbv iota beta.
  rewrite emit_logged, !logged_logged. now eexists.
Qed.

Lemma evolves_update_sensors : Respects evolves update_sensors.
Proof.
  intros w. destruct (update_sensors_logged w) as [es ->].
  apply evolves_logged.
Qed.

Lemma evolves_loop_body it st : Respects evolves (loop_body it st).
Proof.
  unfold loop_body.
  repeat first
    [ apply evolves_next
    | apply evolves_do_maintenance
    | apply evolves_handle_client
    | apply evolves_emit
    | apply (Respects_ret evolves evolves_refl)
    | apply (Respects_gets evolves evolves_refl)
    | apply (Respects_if evolves)
    | apply (Respects_for_each evolves evolves_refl evolves_trans); intro
    | apply (Respects_bind evolves evolves_trans); [| intro] ].
Qed.

Lemma evolves_loop_from script stop : forall st,
  Respects evolves (loop_from script stop st).
Proof.
  induction script as [| [it | | now | ds dht] script IH]; intros st;
    cbn [loop_from].
  - apply (Respects_raise evolves evolves_refl).
  - apply (Respects_bind evolves evolves_trans);
      [apply evolves_loop_body | intro; apply IH].
  - apply (Respects_bind evolves evolves_trans);
      [apply evolves_update_sensors | intro; apply IH].
  - apply (Respects_bind evolves evolves_trans);
      [apply evolves_read_sensors | intro; apply IH].
  - apply (Respects_bind evolves evolves_trans);
      [apply evolves_update_hw | intro; apply IH].
Qed.

Lemma try_block_run t0 t1 script stop w :
  try_block t0 t1 script stop w
  = loop_from script stop
      {| last_check := t0; last_display := t1; display := at_top |}
      (logged [DisplayShow "RUN "; Print msg_starting_timer;
               TimerInit (sensor_interval (self w)) PERIODIC
                 cb_update_sensors;
               PollRegister] w).
Proof.
  unfold try_block, loop, display_show.
  rewrite (bind_return _ _ _ _ _ (emit_logged _ _)).
  rewrite (bind_return _ _ _ _ _ (start_timer_run _)).
  rewrite (bind_return _ _ _ _ _ (emit_logged _ _)).
  now rewrite !logged_logged.
Qed.

(** The whole of [start]: the start-up, the loop until it is left, and the
    cleanup. *)
Lemma start_run t0 t1 script stop w :
  exists w_exit e es h,
    loop_from script stop
      {| last_check := t0; last_display := t1; display := at_top |}
      (logged (startup_events (self w)) w) = (w_exit, Raise e)
    /\ config (self w_exit) = config (self w)
    /\ out w_exit = out w ++ startup_events (self w) ++ es
    /\ start t0 t1 script stop w
       = ({| self := self w_exit; hw := h;
             out := out w ++ startup_events (self w) ++ es
                    ++ cleanup_events (Dict.keys (relays (hw w_exit))) |},
          after_cleanup e).
Proof.
  set (st0 := {| last_check := t0; last_display := t1; display := at_top |}).
  set (w0 := logged (startup_events (self w)) w).
  destruct (loop_from_raises script stop st0 w0) as [w1 [e Hl]].
  pose proof (evolves_loop_from script stop st0 w0) as [Hc [es Ho]].
  rewrite Hl in Hc, Ho. cbn [fst] in Hc, Ho.
  destruct (cleanup_run w1) as [h Hf].
  exists w1, e, es, h.
  split; [exact Hl |]. split; [exact Hc |].
  assert (Ho' : out w1 = out w ++ startup_events (self w) ++ es).
  { rewrite Ho. unfold w0. cbn [out logged]. now rewrite <- app_assoc. }
  split; [exact Ho' |].
  unfold start.
  rewrite (bind_return _ _ _ _ _ (init_socket_run w)).
  rewrite (bind_return _ _ _ _ _ (init_poll_run _)).
  assert (Hb : try_block t0 t1 script stop
                 (logged [SocketBind "0.0.0.0" 80; SocketListen 2] w)
               = (w1, Raise e)).
  { rewrite try_block_run, logged_logged. exact Hl. }
  rewrite (try_finally_raise _ _ _ _ _ _ Hb Hf).
  rewrite Ho'. now rewrite <- !app_assoc.
Qed.

(** X14.  A run of [start] never changes the configuration of the
    controller: when [start] ends, however long the loop ran and whatever
    ended it, the four intervals, the display unit and the nine threshold
    fields are what they were; only the reading table and the timestamp
    move. *)
Theorem start_keeps_configuration :
  forall t0 t1 script stop w,
    let c := self w in
    let c' := self (fst (start t0 t1 script stop w)) in
    config c' = config c
    /\ check_interval c' = check_interval c
    /\ sensor_interval c' = sensor_interval c
    /\ prep_interval c' = prep_interval c
    /\ display_interval c' = display_interval c
    /\ display_f c' = display_f c
    /\ (temp1_low c', temp1_high c', temp1_id c')
       = (temp1_low c, temp1_high c, temp1_id c)
    /\ (temp2_low c', temp2_high c', temp2_id c')
       = (temp2_low c, temp2_high c, temp2_id c)
    /\ (humid_low c', humid_high c', humid_id c')
       = (humid_low c, humid_high c, humid_id c).
Proof.
  intros t0 t1 script stop w c c'.
  assert (H : config c' = config c).
  { unfold c', c.
    destruct (start_run t0 t1 script stop w)
      as (w1 & e & es & h & _ & Hc & _ & ->).
    exact Hc. }
  split; [exact H |].
  split; [exact (f_equal check_interval H) |].
  split; [exact (f_equal sensor_interval H) |].
  split; [exact (f_equal prep_interval H) |].
  split; [exact (f_equal display_interval H) |].
  split; [exact (f_equal display_f H) |].
  split; [exact (f_equal (fun x => (temp1_low x, temp1_high x, temp1_id x))
                   H) |].
  split; [exact (f_equal (fun x => (temp2_low x, temp2_high x, temp2_id x))
                   H) |].
  exact (f_equal (fun x => (humid_low x, humid_high x, humid_id x)) H).
Qed.

(** X15.  The events of a run of [start] come in three parts: first the
    start-up -- the socket is bound to port 80 on all interfaces and listens
    with a backlog of 2, [RUN ] is shown, the periodic timer is armed with
    [sensor_interval] for [update_sensors], the socket is registered with the
    poll object --, then what the loop emits, then the cleanup; nothing
    already emitted is lost. *)
Theorem start_event_structure :
  forall t0 t1 script stop w,
    exists es names,
      out (fst (start t0 t1 script stop w))
      = out w ++ startup_events (self w) ++ es ++ cleanup_events names.
Proof.
  intros t0 t1 script stop w.
  destruct (start_run t0 t1 script stop w)
    as (w1 & e & es & h & _ & _ & _ & ->).
  now exists es, (Dict.keys (relays (hw w1))).
Qed.

(** ** Evaluating a channel twice *)

Lemma set_set {V} k (v : V) d :
  Dict.set k v (Dict.set k v d) = Dict.set k v d.
Proof.
  induction d as [| [k' v'] d IH]; cbn.
  - now rewrite String.eqb_refl.
  - destruct (String.eqb_spec k k') as [-> | Hne]; cbn.
    + now rewrite String.eqb_refl.
    + destruct (String.eqb_spec k k'); [contradiction |]. now rewrite IH.
Qed.

Lemma set_relay_twice name raw h :
  set_relay name raw (set_relay name raw h) = set_relay name raw h.
Proof. unfold set_relay. cbn. now rewrite set_set. Qed.

Lemma handle_sensor_again sensor_name k low high relay_name w :
  let run := handle_sensor sensor_name k low high relay_name in
  hw (fst (run (fst (run w)))) = hw (fst (run w))
  /\ self (fst (run (fst (run w)))) = self w
  /\ snd (run (fst (run w))) = snd (run w).
Proof.
  cbv zeta.
  destruct (table_get sensor_name (sensors (self w))) as [sensor |] eqn:Hs.
  2: { destruct (handle_sensor_missing w sensor_name k low high relay_name
                   (or_introl Hs)) as [m [_ ->]]. cbn [fst snd].
       destruct (handle_sensor_missing (logged [Print (msg_handling_sensor
                                                   sensor_name); Print m] w)
                   sensor_name k low high relay_name (or_introl Hs))
         as [m' [_ ->]]. now repeat split. }
  destruct (Dict.get k sensor) as [value |] eqn:Hk.
  2: { assert (Hm : forall w', self w' = self w ->
                 table_get sensor_name (sensors (self w')) = None
                 \/ (exists s0, table_get sensor_name (sensors (self w'))
                                = Some s0 /\ Dict.get k s0 = None)
                 \/ Dict.get relay_name (relays (hw w')) = None).
       { intros w' ->. right; left. eauto. }
       destruct (handle_sensor_missing w sensor_name k low high relay_name
                   (Hm w eq_refl)) as [m [_ ->]]. cbn [fst snd].
       destruct (handle_sensor_missing _ sensor_name k low high relay_name
                   (Hm (logged [Print (msg_handling_sensor sensor_name);
                                Print m] w) eq_refl))
         as [m' [_ ->]]. now repeat split. }
  destruct (Dict.get relay_name (relays (hw w))) as [raw |] eqn:Hr.
  2: { assert (Hm : forall w', hw w' = hw w ->
                 table_get sensor_name (sensors (self w')) = None
                 \/ (exists s0, table_get sensor_name (sensors (self w'))
                                = Some s0 /\ Dict.get k s0 = None)
                 \/ Dict.get relay_name (relays (hw w')) = None).
       { intros w' ->. now right; right. }
       destruct (handle_sensor_missing w sensor_name k low high relay_name
                   (Hm w eq_refl)) as [m [_ ->]]. cbn [fst snd].
       destruct (handle_sensor_missing _ sensor_name k low high relay_name
                   (Hm (logged [Print (msg_handling_sensor sensor_name);
                                Print m] w) eq_refl))
         as [m' [_ ->]]. now repeat split. }
  rewrite (handle_sensor_live _ _ _ _ _ _ _ _ _ Hs Hk Hr). cbv zeta.
  assert (Hsw : forall raw' es,
             let w1 := switched relay_name raw' (logged es w) in
             table_get sensor_name (sensors (self w1)) = Some sensor
             /\ Dict.get relay_name (relays (hw w1)) = Some raw').
  { intros raw' es. cbv zeta. split; [exact Hs |].
    cbn [hw switched logged set_relay relays]. apply get_set_same. }
  destruct low as [lo |].
  2: { cbn [fst snd].
       rewrite (handle_sensor_live (logged _ w) _ _ _ _ _ _ _ _ Hs Hk Hr).
       now repeat split. }
  destruct (Qle_bool value lo) eqn:Elo.
  { cbn [fst snd].
    destruct (Hsw 0 ([Print (msg_handling_sensor sensor_name)]
                     ++ [Print (msg_activating sensor_name value lo
                                  relay_name); RelayOff relay_name]))
      as [Hs' Hr'].
    rewrite logged_logged.
    rewrite (handle_sensor_live _ _ _ _ _ _ _ _ _ Hs' Hk Hr'). cbv zeta.
    rewrite Elo. cbn [fst snd hw self switched logged].
    now rewrite set_relay_twice. }
  destruct high as [hi |].
  2: { cbn [fst snd].
       rewrite (handle_sensor_live (logged _ w) _ _ _ _ _ _ _ _ Hs Hk Hr).
       rewrite Elo. now repeat split. }
  destruct (Qle_bool hi value) eqn:Ehi.
  { cbn [fst snd].
    destruct (Hsw 1 ([Print (msg_handling_sensor sensor_name)]
                     ++ [Print (msg_deactivating sensor_name value hi
                                  relay_name); RelayOn relay_name]))
      as [Hs' Hr'].
    rewrite logged_logged.
    rewrite (handle_sensor_live _ _ _ _ _ _ _ _ _ Hs' Hk Hr'). cbv zeta.
    rewrite Elo, Ehi. cbn [fst snd hw self switched logged].
    now rewrite set_relay_twice. }
  cbn [fst snd].
  rewrite (handle_sensor_live (logged _ w) _ _ _ _ _ _ _ _ Hs Hk Hr).
  rewrite Elo, Ehi. now repeat split.
Qed.

(** X16.  Evaluating a channel a second time on the same readings changes
    nothing more: the relays are after the second call of [handle_sensor] as
    after the first, the controller is untouched, and the second call ends as
    the first did. *)
Theorem handle_sensor_twice :
  forall sensor_name k low high relay_name w,
    let run := handle_sensor sensor_name k low high relay_name in
    hw (fst (run (fst (run w)))) = hw (fst (run w))
    /\ self (fst (run (fst (run w)))) = self w
    /\ snd (run (fst (run w))) = snd (run w).
Proof. intros. apply handle_sensor_again. Qed.

(** ** The deltas in binary64 *)

(** X17.  With the binary64 product of the source, [int(interval * 0.9)] is
    the floor of nine tenths of the interval for every interval from 0 to
    100000 ms: the rounding of the constant and of the product never reaches
    the integer part. *)
Theorem binary64_deltas :
  forall interval,
    0 <= interval <= 100000 ->
    Binary64.delta interval = floor_delta interval
    /\ Binary64.delta interval = check_delta interval.
Proof.
  intros n Hn. split; [| reflexivity].
  apply (agree_spec (Z.to_nat 100001) 0 binary64_agrees). lia.
Qed.

Lemma binary64_deltas_witness :
  Binary64.delta 12345 = floor_delta 12345.
Proof. apply (binary64_deltas 12345). lia. Defined.
